(** * Camera-matrix decomposition of [examples/Pmat_to_camera.py]

    A shallow embedding of [rf_rq] (RQ decomposition by axis reversal around
    [numpy.linalg.qr]) and of [KRT_from_P] (P = K [R | T]), and the
    properties of the two functions.

    The Python code is written against numpy's matrix interface and runs
    unchanged on any element type.  The embedding keeps that shape: the two
    functions are defined once, over a class [Scalar] of element operations,
    and are then read at two instances,
    - the real numbers [R], where arithmetic is exact: the algebraic
      properties of the decomposition are proved there (Parts II, IV and
      the first half of Part VI), as properties of the algorithm in exact
      arithmetic;
    - the binary64 floats of the kernel ([PrimFloat]), which are numpy's
      [float64] with its rounding, overflow, underflow, infinities and
      NaN: this is the arithmetic the program runs in, and what it does
      there is evaluated and proved in Parts III, V, the second half of
      Part VI, and Part VII, which shows where the exact properties stop
      holding.
    Part I holds at every element type.

    [numpy.linalg.qr] and [numpy.linalg.lstsq] are library calls.  They are
    fields of a record [LinAlg] handed to the functions, and the theorems
    assume of them only their documented contract, at the arguments of the
    calls that are made.

    The arrays of the source are never shared: [qr] returns fresh arrays,
    the transposes and reversals of [rf_rq] are views of those, and the
    in-place updates ([r[:,0] *= -1], [q[0,:] *= -1], [K /= K[-1,-1]])
    write to them only; [H] is a view of [P] and is only read.  The
    embedding is therefore by values. *)

From Stdlib Require Import Reals Lra Psatz Bool.
From Stdlib Require Import Floats.

Set Implicit Arguments.

(** ** Element type *)

Class Scalar (F : Type) := {
  s_zero : F;
  s_one  : F;
  s_add  : F -> F -> F;
  s_sub  : F -> F -> F;
  s_mul  : F -> F -> F;
  s_div  : F -> F -> F;
  s_opp  : F -> F;
  s_ltb  : F -> F -> bool;
  s_eqb  : F -> F -> bool
}.

Declare Scope scalar_scope.
Delimit Scope scalar_scope with sc.
Infix "+" := s_add : scalar_scope.
Infix "-" := s_sub : scalar_scope.
Infix "*" := s_mul : scalar_scope.
Infix "/" := s_div : scalar_scope.
Notation "- x" := (s_opp x) : scalar_scope.
Infix "<?" := s_ltb : scalar_scope.
Infix "=?" := s_eqb : scalar_scope.

(** ** Results of calls that may raise

    The source has no [raise] of its own; the only exception that can leave
    [KRT_from_P] is the [numpy.linalg.LinAlgError] of a library call. *)

Inductive exn : Type := LinAlgError.

Inductive result (A : Type) : Type :=
| Ok (a : A)
| Raise (e : exn).

Arguments Ok {A} a.
Arguments Raise {A} e.

Definition bind {A B : Type} (m : result A) (k : A -> result B) : result B :=
  match m with
  | Ok a => k a
  | Raise e => Raise e
  end.

Notation "x <- m ;; k" := (bind m (fun x => k))
  (at level 61, m at next level, right associativity).
Notation "' p <- m ;; k" := (bind m (fun x => match x with p => k end))
  (at level 61, p pattern, m at next level, right associativity).

(** ** Fixed-size arrays

    [vec3] is a numpy array of three entries (a row, a column, or a
    diagonal); [mat] is a 3x3 matrix stored by rows, [mat34] the 3x4
    projection matrix. *)

Record vec3 (F : Type) : Type := V3 { e0 : F; e1 : F; e2 : F }.
Record vec4 (F : Type) : Type := V4 { f0 : F; f1 : F; f2 : F; f3 : F }.

Definition mat (F : Type) : Type := vec3 (vec3 F).
Definition mat34 (F : Type) : Type := vec3 (vec4 F).

Definition vmap {A B : Type} (f : A -> B) (v : vec3 A) : vec3 B :=
  V3 (f (e0 v)) (f (e1 v)) (f (e2 v)).

Definition mmap {A B : Type} (f : A -> B) (m : mat A) : mat B :=
  vmap (vmap f) m.

(** [v[::-1]] *)
Definition vrev {A : Type} (v : vec3 A) : vec3 A :=
  V3 (e2 v) (e1 v) (e0 v).

(** [m[::-1, ::-1]]: both axes reversed. *)
Definition flip {A : Type} (m : mat A) : mat A :=
  vrev (vmap vrev m).

(** [m.T] *)
Definition transpose {A : Type} (m : mat A) : mat A :=
  V3 (V3 (e0 (e0 m)) (e0 (e1 m)) (e0 (e2 m)))
     (V3 (e1 (e0 m)) (e1 (e1 m)) (e1 (e2 m)))
     (V3 (e2 (e0 m)) (e2 (e1 m)) (e2 (e2 m))).

(** Column [j] of a matrix. *)
Definition col0 {A : Type} (m : mat A) : vec3 A := vmap (@e0 A) m.
Definition col1 {A : Type} (m : mat A) : vec3 A := vmap (@e1 A) m.
Definition col2 {A : Type} (m : mat A) : vec3 A := vmap (@e2 A) m.

(** [P[:, 0:3]] and [P[:, -1]] *)
Definition leading3 {A : Type} (P : mat34 A) : mat A :=
  vmap (fun r => V3 (f0 r) (f1 r) (f2 r)) P.

Definition lastcol {A : Type} (P : mat34 A) : vec3 A :=
  vmap (@f3 A) P.

(** [[R | T]]: the 3x4 matrix whose leading block is [R] and whose last
    column is [T]. *)
Definition hstack {A : Type} (R : mat A) (T : vec3 A) : mat34 A :=
  V3 (V4 (e0 (e0 R)) (e1 (e0 R)) (e2 (e0 R)) (e0 T))
     (V4 (e0 (e1 R)) (e1 (e1 R)) (e2 (e1 R)) (e1 T))
     (V4 (e0 (e2 R)) (e1 (e2 R)) (e2 (e2 R)) (e2 T)).

(** [numpy.diag] of a matrix: its diagonal. *)
Definition diagonal {A : Type} (m : mat A) : vec3 A :=
  V3 (e0 (e0 m)) (e1 (e1 m)) (e2 (e2 m)).

Section Generic.

Context {F : Type} `{Scalar F}.
Local Open Scope scalar_scope.

(** [numpy.diag] of a one-dimensional array: the diagonal matrix. *)
Definition diag (v : vec3 F) : mat F :=
  V3 (V3 (e0 v) s_zero s_zero)
     (V3 s_zero (e1 v) s_zero)
     (V3 s_zero s_zero (e2 v)).

Definition identity : mat F := diag (V3 s_one s_one s_one).

(** [numpy.sign], the ufunc's inner loop:
    [x > 0 ? 1 : (x < 0 ? -1 : (x == 0 ? 0 : x))]; a NaN is returned
    as it is. *)
Definition sign (x : F) : F :=
  if s_zero <? x then s_one
  else if x <? s_zero then - s_one
  else if x =? s_zero then s_zero
  else x.

Definition dot (u v : vec3 F) : F :=
  e0 u * e0 v + e1 u * e1 v + e2 u * e2 v.

(** Product of a matrix and a column. *)
Definition mulv (m : mat F) (v : vec3 F) : vec3 F :=
  vmap (fun r => dot r v) m.

(** [a * b] on [numpy.matrix]: the matrix product. *)
Definition mmul (a b : mat F) : mat F :=
  vmap (fun r => V3 (dot r (col0 b)) (dot r (col1 b)) (dot r (col2 b))) a.

(** Product of a 3x3 and a 3x4 matrix. *)
Definition mmul34 (a : mat F) (b : mat34 F) : mat34 F :=
  vmap (fun r => V4 (dot r (vmap (@f0 F) b)) (dot r (vmap (@f1 F) b))
                    (dot r (vmap (@f2 F) b)) (dot r (vmap (@f3 F) b))) a.

(** [-m], [-v] *)
Definition vopp (v : vec3 F) : vec3 F := vmap s_opp v.
Definition mopp (m : mat F) : mat F := mmap s_opp m.

(** [m /= c]: every entry divided by the scalar [c]. *)
Definition mdiv (m : mat F) (c : F) : mat F := mmap (fun x => x / c) m.

(** [c * m] for a scalar [c]. *)
Definition mscale34 (c : F) (m : mat34 F) : mat34 F :=
  vmap (fun r => V4 (c * f0 r) (c * f1 r) (c * f2 r) (c * f3 r)) m.

(** [m[:,0] *= -1] and [m[0,:] *= -1] *)
Definition negate_col0 (m : mat F) : mat F :=
  vmap (fun r => V3 (e0 r * - s_one) (e1 r) (e2 r)) m.

Definition negate_row0 (m : mat F) : mat F :=
  V3 (vmap (fun x => x * - s_one) (e0 m)) (e1 m) (e2 m).

(** [numpy.linalg.det].  numpy computes it from an LU factorisation; the
    value that factorisation computes is the determinant, written here as
    the expansion along the first row. *)
Definition det (m : mat F) : F :=
  let '(V3 (V3 a b c) (V3 d e f) (V3 g h i)) := m in
  a * (e * i - f * h) - b * (d * i - f * g) + c * (d * h - e * g).

(** The two library calls the code makes. *)
Record LinAlg : Type := {
  (** [numpy.linalg.qr(a, 'complete')], returning [(q, r)] *)
  qr : mat F -> result (mat F * mat F);
  (** [numpy.linalg.lstsq(a, b)[0]] *)
  lstsq : mat F -> vec3 F -> result (vec3 F)
}.

Variable la : LinAlg.

(** [rf_rq], lines 43-55. *)
Definition rf_rq (P : mat F) : result (mat F * mat F) :=
  let P := transpose P in
  '(q, r) <- qr la (flip P) ;;
  let q := transpose q in
  let q := flip q in
  let r := transpose r in
  let r := flip r in
  if det q <? s_zero
  then Ok (negate_col0 r, negate_row0 q)
  else Ok (r, q).

(** The steps of [KRT_from_P], one definition per statement group. *)

(** line 17: [K /= K[-1,-1]] *)
Definition scale_normalize (K : mat F) : mat F :=
  mdiv K (e2 (e2 K)).

(** line 21: [sg = numpy.diag(numpy.sign(numpy.diag(K)))] *)
Definition sign_matrix (K : mat F) : mat F :=
  diag (vmap sign (diagonal K)).

(** lines 23-24: [K = K * sg; R = sg * R] *)
Definition sign_canonicalize (K R : mat F) : mat F * mat F :=
  let sg := sign_matrix K in
  (mmul K sg, mmul sg R).

(** lines 26-27: [if det(R) < 0: R = -R] *)
Definition proper_rotation_fix (R : mat F) : mat F :=
  if det R <? s_zero then mopp R else R.

(** [KRT_from_P], lines 11-31. *)
Definition KRT_from_P (P : mat34 F) : result (mat F * mat F * vec3 F) :=
  let H := leading3 P in
  '(K, R) <- rf_rq H ;;
  let K := scale_normalize K in
  let '(K, R) := sign_canonicalize K R in
  let R := proper_rotation_fix R in
  C <- lstsq la (mopp H) (lastcol P) ;;
  let T := mulv (mopp R) C in
  Ok (K, R, T).

End Generic.

Arguments LinAlg F : clear implicits.

(** ** The two instances

    [Scalar_R] reads the operations as exact real arithmetic;
    [Scalar_float] reads them as binary64, the arithmetic of numpy's
    [float64]. *)

Definition Rltb (x y : R) : bool := if Rlt_dec x y then true else false.
Definition Reqb (x y : R) : bool := if Req_dec_T x y then true else false.

#[export] Instance Scalar_R : Scalar R := {
  s_zero := 0%R; s_one := 1%R;
  s_add := Rplus; s_sub := Rminus; s_mul := Rmult; s_div := Rdiv;
  s_opp := Ropp; s_ltb := Rltb; s_eqb := Reqb
}.

#[export] Instance Scalar_float : Scalar float := {
  s_zero := 0%float; s_one := 1%float;
  s_add := PrimFloat.add; s_sub := PrimFloat.sub; s_mul := PrimFloat.mul;
  s_div := PrimFloat.div; s_opp := PrimFloat.opp;
  s_ltb := PrimFloat.ltb; s_eqb := PrimFloat.eqb
}.

(** * Part I: what every run does

    Facts that hold at every element type: they follow from the shape of
    the two function bodies alone. *)

Unset Implicit Arguments.

Section Runs.

Context {F : Type} `{Scalar F}.
Variable la : LinAlg F.

Lemma rf_rq_returns (A : mat F) (q r : mat F) :
  qr la (flip (transpose A)) = Ok (q, r) ->
  exists Rf Q, rf_rq la A = Ok (Rf, Q).
Proof.
  intros Hcall. unfold rf_rq. rewrite Hcall. cbn [bind].
  destruct (s_ltb _ _); eauto.
Qed.

(** A run that returns went through both library calls, and its result is
    built from theirs in the order of the source: [K] and [R] by the scale
    normalisation, the sign canonicalisation and the determinant fix, and
    then [T] from the [R] so obtained. *)
Lemma KRT_from_P_inversion (P : mat34 F) (K Q : mat F) (T : vec3 F) :
  KRT_from_P la P = Ok (K, Q, T) ->
  exists r q C,
    rf_rq la (leading3 P) = Ok (r, q) /\
    lstsq la (mopp (leading3 P)) (lastcol P) = Ok C /\
    K = fst (sign_canonicalize (scale_normalize r) q) /\
    Q = proper_rotation_fix (snd (sign_canonicalize (scale_normalize r) q)) /\
    T = mulv (mopp Q) C.
Proof.
  unfold KRT_from_P. intros Hrun.
  destruct (rf_rq la (leading3 P)) as [[r q] | e]; [| discriminate].
  cbn [bind] in Hrun.
  destruct (sign_canonicalize (scale_normalize r) q) as [K1 Q1] eqn:Hcan.
  destruct (lstsq la (mopp (leading3 P)) (lastcol P)) as [C | e];
    [| discriminate].
  cbn [bind] in Hrun. injection Hrun as <- <- <-.
  exists r, q, C. rewrite Hcan. cbn [fst snd]. auto.
Qed.

(** The body of [KRT_from_P] has no check and no [raise]: the only way out
    other than its [return] is an exception of a library call. *)

(** C4 (as the code has it). For every 3x4 input [P], the inputs with a
    singular leading block included, [KRT_from_P] has no failure of its
    own: whenever the call of [numpy.linalg.qr] and the call of
    [numpy.linalg.lstsq] return, [KRT_from_P] returns a triple
    [(K, R, T)].  No singularity is detected and nothing is raised for it;
    what the triple holds on a singular block is whatever the arithmetic
    produces (NaN, in binary64, on a zero corner of the triangular
    factor). *)
Theorem KRT_from_P_returns (P : mat34 F) (q r : mat F) (C : vec3 F) :
  qr la (flip (transpose (leading3 P))) = Ok (q, r) ->
  lstsq la (mopp (leading3 P)) (lastcol P) = Ok C ->
  exists K Q T, KRT_from_P la P = Ok (K, Q, T).
Proof.
  intros Hqr Hls.
  destruct (rf_rq_returns _ _ _ Hqr) as (Rf & Q & Hrf).
  unfold KRT_from_P. rewrite Hrf. cbn [bind].
  destruct (sign_canonicalize (scale_normalize Rf) Q) as [K1 Q1].
  rewrite Hls. cbn [bind]. eauto.
Qed.

End Runs.

(** * Part II: exact arithmetic

    The element type is [R]: no rounding, no overflow or underflow, no NaN.
    What is proved here is proved of the algorithm in exact arithmetic,
    with the library calls meeting their contracts exactly; it is not a
    bound on what binary64 computes (Part VII).  numpy's division by zero
    has no counterpart in [R] ([x / 0] is an unspecified real where numpy
    gives an infinity or NaN): every property below that depends on a
    quotient derives a nonzero divisor first, from the nonsingular leading
    block. *)

Module Exact.

Local Open Scope R_scope.

(** Tactics: split every array in sight into its entries, then compare
    entry by entry. *)
Ltac split_arrays :=
  repeat match goal with
         | v : mat _ |- _ => destruct v as [[? ? ?] [? ? ?] [? ? ?]]
         | v : mat34 _ |- _ => destruct v as [[? ? ? ?] [? ? ? ?] [? ? ? ?]]
         | v : vec3 _ |- _ => destruct v as [? ? ?]
         | v : vec4 _ |- _ => destruct v as [? ? ? ?]
         end.

Ltac entries := cbv [mmul mmul34 mulv dot transpose flip vrev vmap mmap col0 col1 col2
                     identity diag diagonal mopp vopp mdiv negate_col0 negate_row0
                     leading3 lastcol hstack mscale34 det
                     e0 e1 e2 f0 f1 f2 f3
                     s_zero s_one s_add s_sub s_mul s_div s_opp Scalar_R].

Lemma V3_eq (A : Type) (a b c a' b' c' : A) :
  a = a' -> b = b' -> c = c' -> V3 a b c = V3 a' b' c'.
Proof. congruence. Qed.

Lemma V4_eq (A : Type) (a b c d a' b' c' d' : A) :
  a = a' -> b = b' -> c = c' -> d = d' -> V4 a b c d = V4 a' b' c' d'.
Proof. congruence. Qed.

Ltac array_eq := repeat first [apply V3_eq | apply V4_eq].

Ltac by_entries := intros; split_arrays; entries; array_eq; ring.

Lemma mmul_assoc (A B C : mat R) : mmul (mmul A B) C = mmul A (mmul B C).
Proof. by_entries. Qed.

Lemma mmul_1_l (A : mat R) : mmul identity A = A.
Proof. by_entries. Qed.

Lemma mmul_1_r (A : mat R) : mmul A identity = A.
Proof. by_entries. Qed.

Lemma transpose_mmul (A B : mat R) :
  transpose (mmul A B) = mmul (transpose B) (transpose A).
Proof. by_entries. Qed.

Lemma transpose_transpose (A : mat R) : transpose (transpose A) = A.
Proof. by_entries. Qed.

Lemma flip_flip (A : mat R) : flip (flip A) = A.
Proof. by_entries. Qed.

Lemma flip_mmul (A B : mat R) : flip (mmul A B) = mmul (flip A) (flip B).
Proof. by_entries. Qed.

Lemma flip_transpose (A : mat R) : flip (transpose A) = transpose (flip A).
Proof. by_entries. Qed.

Lemma flip_identity : flip identity = (identity : mat R).
Proof. reflexivity. Qed.

Lemma det_mmul (A B : mat R) : det (mmul A B) = det A * det B.
Proof. by_entries. Qed.

Lemma det_transpose (A : mat R) : det (transpose A) = det A.
Proof. by_entries. Qed.

Lemma det_flip (A : mat R) : det (flip A) = det A.
Proof. by_entries. Qed.

Lemma det_identity : det (identity : mat R) = 1.
Proof. entries. ring. Qed.

Lemma det_mopp (A : mat R) : det (mopp A) = - det A.
Proof. by_entries. Qed.

Lemma det_negate_row0 (A : mat R) : det (negate_row0 A) = - det A.
Proof. by_entries. Qed.

Lemma negate_col0_row0 (A B : mat R) :
  mmul (negate_col0 A) (negate_row0 B) = mmul A B.
Proof. by_entries. Qed.

(** ** Specification vocabulary *)

(** Upper triangular: the three entries below the diagonal vanish. *)
Definition upper (A : mat R) : Prop :=
  e0 (e1 A) = 0 /\ e0 (e2 A) = 0 /\ e1 (e2 A) = 0.

(** Orthogonal: the transpose is a two-sided inverse. *)
Definition orthogonal (Q : mat R) : Prop :=
  mmul Q (transpose Q) = identity /\ mmul (transpose Q) Q = identity.

(** A proper rotation. *)
Definition rotation (Q : mat R) : Prop := orthogonal Q /\ det Q = 1.

Definition positive_diagonal (K : mat R) : Prop :=
  0 < e0 (e0 K) /\ 0 < e1 (e1 K) /\ 0 < e2 (e2 K).

Definition nonzero_diagonal (K : mat R) : Prop :=
  e0 (e0 K) <> 0 /\ e1 (e1 K) <> 0 /\ e2 (e2 K) <> 0.

(** The canonical form of the intrinsic matrix. *)
Definition canonical_K (K : mat R) : Prop :=
  upper K /\ 0 < e0 (e0 K) /\ 0 < e1 (e1 K) /\ e2 (e2 K) = 1.

Definition mscale (c : R) (m : mat R) : mat R := mmap (fun x => c * x) m.

Definition vsub (u v : vec3 R) : vec3 R :=
  V3 (e0 u - e0 v) (e1 u - e1 v) (e2 u - e2 v).

Definition norm2 (v : vec3 R) : R := dot v v.

(** [x] minimises the Euclidean norm of [A x - b]. *)
Definition least_squares (A : mat R) (b x : vec3 R) : Prop :=
  forall y, norm2 (vsub (mulv A x) b) <= norm2 (vsub (mulv A y) b).

(** Contract of [numpy.linalg.qr(A, 'complete')] at the argument [A]: it
    returns an orthogonal [q] and an upper triangular [r] with [q r = A]. *)
Definition qr_contract (la : LinAlg R) (A : mat R) : Prop :=
  exists q r, qr la A = Ok (q, r) /\ orthogonal q /\ upper r /\ mmul q r = A.

(** Contract of [numpy.linalg.lstsq(A, b)[0]] at the arguments [A], [b]:
    it returns a minimiser of the residual. *)
Definition lstsq_contract (la : LinAlg R) (A : mat R) (b : vec3 R) : Prop :=
  exists x, lstsq la A b = Ok x /\ least_squares A b x.

(** What [KRT_from_P] asks of the library on the input [P]: the call of
    [qr] made by [rf_rq] on the leading block, and the call of [lstsq]. *)
Definition library_contract (la : LinAlg R) (P : mat34 R) : Prop :=
  qr_contract la (flip (transpose (leading3 P))) /\
  lstsq_contract la (mopp (leading3 P)) (lastcol P).

(** Entrywise closeness. *)
Definition close (eps x y : R) : Prop := Rabs (x - y) <= eps.

Definition vec3_all {A : Type} (p : A -> A -> Prop) (u v : vec3 A) : Prop :=
  p (e0 u) (e0 v) /\ p (e1 u) (e1 v) /\ p (e2 u) (e2 v).

Definition vec_close (eps : R) : vec3 R -> vec3 R -> Prop :=
  vec3_all (close eps).
Definition mat_close (eps : R) : mat R -> mat R -> Prop :=
  vec3_all (vec3_all (close eps)).

(** ** Comparisons and [numpy.sign] on the reals *)

Lemma Rltb_true (x y : R) : x < y -> Rltb x y = true.
Proof. intros; unfold Rltb; destruct (Rlt_dec x y); [reflexivity | contradiction]. Qed.

Lemma Rltb_false (x y : R) : ~ x < y -> Rltb x y = false.
Proof. intros; unfold Rltb; destruct (Rlt_dec x y); [contradiction | reflexivity]. Qed.

Lemma sign_pos (x : R) : 0 < x -> sign x = 1.
Proof. intros; unfold sign; cbn; rewrite Rltb_true; auto. Qed.

Lemma sign_neg (x : R) : x < 0 -> sign x = -1.
Proof.
  intros; unfold sign; cbn.
  rewrite Rltb_false, Rltb_true; auto; lra.
Qed.

Lemma sign_zero : sign 0 = 0.
Proof.
  unfold sign; cbn. rewrite !Rltb_false by lra.
  unfold Reqb; destruct (Req_dec_T 0 0); [reflexivity | contradiction].
Qed.

Lemma sign_mul_abs (x : R) : x <> 0 -> 0 < x * sign x /\ sign x * sign x = 1.
Proof.
  intros Hx; destruct (Rlt_dec 0 x) as [Hp | Hn].
  - rewrite sign_pos by assumption; lra.
  - rewrite sign_neg by lra; lra.
Qed.

(** ** Orthogonal and triangular matrices *)

Lemma orthogonal_identity : orthogonal identity.
Proof. split; entries; array_eq; ring. Qed.

Lemma orthogonal_mmul (A B : mat R) :
  orthogonal A -> orthogonal B -> orthogonal (mmul A B).
Proof.
  intros [HA HA'] [HB HB']; split; rewrite transpose_mmul.
  - rewrite mmul_assoc, <- (mmul_assoc B), HB, mmul_1_l; exact HA.
  - rewrite mmul_assoc, <- (mmul_assoc (transpose A)), HA', mmul_1_l; exact HB'.
Qed.

Lemma orthogonal_flip_transpose (Q : mat R) :
  orthogonal Q -> orthogonal (flip (transpose Q)).
Proof.
  intros [HQ HQ']; split.
  - rewrite <- flip_transpose, transpose_transpose, <- flip_mmul, HQ'.
    apply flip_identity.
  - rewrite <- flip_transpose, transpose_transpose, <- flip_mmul, HQ.
    apply flip_identity.
Qed.

Lemma orthogonal_det (Q : mat R) : orthogonal Q -> det Q * det Q = 1.
Proof.
  intros [HQ _]. apply (f_equal det) in HQ.
  now rewrite det_mmul, det_transpose, det_identity in HQ.
Qed.

Lemma square_one (x : R) : x * x = 1 -> x = 1 \/ x = -1.
Proof.
  intros Hx. assert (Hz : (x - 1) * (x + 1) = 0) by lra.
  apply Rmult_integral in Hz. destruct Hz; [left | right]; lra.
Qed.

Lemma orthogonal_det_cases (Q : mat R) : orthogonal Q -> det Q = 1 \/ det Q = -1.
Proof. intros HQ; apply square_one, orthogonal_det, HQ. Qed.

Lemma orthogonal_mopp (Q : mat R) : orthogonal Q -> orthogonal (mopp Q).
Proof.
  intros [HQ HQ']; split.
  - rewrite <- HQ; by_entries.
  - rewrite <- HQ'; by_entries.
Qed.

(** The reflection [diag(-1, 1, 1)] behind the two in-place negations of
    [rf_rq]. *)
Definition reflect0 : mat R := diag (V3 (-1) 1 1).

Lemma negate_row0_reflect (Q : mat R) : negate_row0 Q = mmul reflect0 Q.
Proof. unfold reflect0; by_entries. Qed.

Lemma orthogonal_reflect0 : orthogonal reflect0.
Proof. split; unfold reflect0; entries; array_eq; ring. Qed.

Lemma upper_flip_transpose (A : mat R) : upper A -> upper (flip (transpose A)).
Proof.
  unfold upper; split_arrays; entries; intuition.
Qed.

Lemma upper_negate_col0 (A : mat R) : upper A -> upper (negate_col0 A).
Proof.
  unfold upper; split_arrays; entries; intros (H1 & H2 & H3).
  repeat split; subst; ring.
Qed.

Lemma upper_det (A : mat R) :
  upper A -> det A = e0 (e0 A) * e1 (e1 A) * e2 (e2 A).
Proof.
  unfold upper; split_arrays; entries; intros (H1 & H2 & H3); subst; ring.
Qed.

(** ** [rf_rq] *)

Lemma rf_rq_product (q r A : mat R) :
  mmul q r = flip (transpose A) ->
  mmul (flip (transpose r)) (flip (transpose q)) = A.
Proof.
  intros Hqr.
  rewrite <- flip_mmul, <- transpose_mmul, Hqr.
  rewrite <- flip_transpose, transpose_transpose. apply flip_flip.
Qed.

(** Under the contract of [qr], [rf_rq] returns an upper triangular factor
    and a proper rotation whose product is the argument. *)
Lemma rf_rq_spec (la : LinAlg R) (A : mat R) :
  qr_contract la (flip (transpose A)) ->
  exists r q, rf_rq la A = Ok (r, q) /\ upper r /\ rotation q /\ mmul r q = A.
Proof.
  intros (q & r & Hcall & Hq & Hr & Hqr).
  unfold rf_rq. rewrite Hcall. cbn [bind].
  pose proof (orthogonal_flip_transpose _ Hq) as Hq'.
  pose proof (upper_flip_transpose _ Hr) as Hr'.
  pose proof (rf_rq_product _ _ _ Hqr) as Hprod.
  pose proof (orthogonal_det_cases _ Hq') as Hdet.
  change (@s_ltb R _ ?x ?y) with (Rltb x y). change (@s_zero R _) with 0.
  destruct (Rlt_dec (det (flip (transpose q))) 0) as [Hneg | Hpos].
  - rewrite Rltb_true by assumption.
    exists (negate_col0 (flip (transpose r))), (negate_row0 (flip (transpose q))).
    split; [reflexivity |]. split; [now apply upper_negate_col0 |].
    split; [| now rewrite negate_col0_row0].
    split.
    + rewrite negate_row0_reflect.
      apply orthogonal_mmul; [apply orthogonal_reflect0 | assumption].
    + rewrite det_negate_row0. lra.
  - rewrite Rltb_false by assumption.
    exists (flip (transpose r)), (flip (transpose q)).
    split; [reflexivity |]. split; [assumption |]. split; [| assumption].
    split; [assumption | lra].
Qed.

(** ** The steps of [KRT_from_P] *)

Lemma sign_nonzero (x : R) :
  x <> 0 -> (sign x = 1 /\ 0 < x) \/ (sign x = -1 /\ x < 0).
Proof.
  intros Hx; destruct (Rlt_dec 0 x) as [Hp | Hn].
  - left; split; [now apply sign_pos | assumption].
  - right; split; [apply sign_neg |]; lra.
Qed.

(** Scale normalisation of a triangular factor with a nonzero corner. *)
Lemma scale_normalize_spec (K : mat R) :
  e2 (e2 K) <> 0 ->
  mscale (e2 (e2 K)) (scale_normalize K) = K /\
  e2 (e2 (scale_normalize K)) = 1 /\
  (upper K -> upper (scale_normalize K)) /\
  (nonzero_diagonal K -> nonzero_diagonal (scale_normalize K)).
Proof.
  unfold scale_normalize, mscale, upper, nonzero_diagonal.
  split_arrays; entries; intros Hc.
  split; [array_eq; field; exact Hc |].
  split; [field; exact Hc |].
  split.
  - intros (H1 & H2 & H3); subst.
    repeat split; field; exact Hc.
  - intros (H1 & H2 & H3). unfold Rdiv.
    repeat split; apply Rmult_integral_contrapositive_currified;
      try assumption; now apply Rinv_neq_0_compat.
Qed.

(** Sign canonicalisation of a factor whose diagonal has no zero. *)
Lemma sign_canonicalize_spec (K Q : mat R) :
  nonzero_diagonal K ->
  mmul (fst (sign_canonicalize K Q)) (snd (sign_canonicalize K Q)) = mmul K Q /\
  positive_diagonal (fst (sign_canonicalize K Q)) /\
  (upper K -> upper (fst (sign_canonicalize K Q))) /\
  (e2 (e2 K) = 1 -> e2 (e2 (fst (sign_canonicalize K Q))) = 1) /\
  (orthogonal Q -> orthogonal (snd (sign_canonicalize K Q))).
Proof.
  intros (H0 & H1 & H2).
  unfold sign_canonicalize, sign_matrix, positive_diagonal, upper.
  cbn [fst snd].
  destruct K as [[k00 k01 k02] [k10 k11 k12] [k20 k21 k22]].
  change (diagonal (V3 (V3 k00 k01 k02) (V3 k10 k11 k12) (V3 k20 k21 k22)))
    with (V3 k00 k11 k22).
  change (vmap sign (V3 k00 k11 k22)) with (V3 (sign k00) (sign k11) (sign k22)).
  cbn [e0 e1 e2] in H0, H1, H2.
  destruct (sign_nonzero _ H0) as [[-> S0] | [-> S0]];
  destruct (sign_nonzero _ H1) as [[-> S1] | [-> S1]];
  destruct (sign_nonzero _ H2) as [[-> S2] | [-> S2]];
  (split; [by_entries |]);
  (split; [entries; repeat split; lra |]);
  (split; [entries; intros (E1 & E2 & E3); subst; repeat split; ring |]);
  (split; [entries; intros; lra |]);
  (intros HQ; apply orthogonal_mmul; [| exact HQ]);
  split; entries; array_eq; ring.
Qed.

(** The determinant fix turns an orthogonal matrix into a proper rotation
    by at most a global change of sign. *)
Lemma proper_rotation_fix_spec (Q : mat R) :
  orthogonal Q ->
  rotation (proper_rotation_fix Q) /\
  ((det Q = 1 /\ proper_rotation_fix Q = Q) \/
   (det Q = -1 /\ proper_rotation_fix Q = mopp Q)).
Proof.
  intros HQ. unfold proper_rotation_fix, rotation.
  change (@s_ltb R _ ?x ?y) with (Rltb x y). change (@s_zero R _) with 0.
  destruct (orthogonal_det_cases _ HQ) as [Hd | Hd].
  - rewrite Rltb_false by lra. auto.
  - rewrite Rltb_true by lra. split; [| right; auto].
    split; [now apply orthogonal_mopp | rewrite det_mopp; lra].
Qed.

(** ** Solving with a nonsingular matrix *)

(** Cramer's rule, as a reference solution. *)
Definition adjugate (A : mat R) : mat R :=
  let '(V3 (V3 a b c) (V3 d e f) (V3 g h i)) := A in
  V3 (V3 (e * i - f * h) (c * h - b * i) (b * f - c * e))
     (V3 (f * g - d * i) (a * i - c * g) (c * d - a * f))
     (V3 (d * h - e * g) (b * g - a * h) (a * e - b * d)).

Definition cramer (A : mat R) (b : vec3 R) : vec3 R :=
  vmap (fun x => x / det A) (mulv (adjugate A) b).

Lemma adjugate_mulv (A : mat R) (x : vec3 R) :
  mulv (adjugate A) (mulv A x) = vmap (fun t => det A * t) x.
Proof. intros; split_arrays; cbv [adjugate]; entries; array_eq; ring. Qed.

Lemma cramer_solves (A : mat R) (b : vec3 R) :
  det A <> 0 -> mulv A (cramer A b) = b.
Proof.
  unfold cramer; split_arrays; cbv [adjugate]; entries; intros Hd.
  array_eq; field; exact Hd.
Qed.

Lemma mulv_injective (A : mat R) (x y : vec3 R) :
  det A <> 0 -> mulv A x = mulv A y -> x = y.
Proof.
  intros Hd Hxy. apply (f_equal (mulv (adjugate A))) in Hxy.
  rewrite !adjugate_mulv in Hxy.
  destruct x as [x0 x1 x2], y as [y0 y1 y2]; cbn [vmap e0 e1 e2] in Hxy.
  injection Hxy as E0 E1 E2.
  array_eq; eapply Rmult_eq_reg_l; eauto.
Qed.

Lemma sum_squares_zero (a b c : R) :
  a * a + b * b + c * c <= 0 -> a = 0 /\ b = 0 /\ c = 0.
Proof. intros Hs; repeat split; nra. Qed.

(** For a nonsingular matrix a least-squares solution is the solution. *)
Lemma least_squares_exact (A : mat R) (b x : vec3 R) :
  det A <> 0 -> least_squares A b x -> mulv A x = b.
Proof.
  intros Hd Hls. specialize (Hls (cramer A b)).
  rewrite cramer_solves in Hls by assumption.
  destruct (mulv A x) as [u0 u1 u2], b as [b0 b1 b2].
  unfold norm2, vsub in Hls; cbv [dot e0 e1 e2 s_add s_mul Scalar_R] in Hls.
  destruct (sum_squares_zero (u0 - b0) (u1 - b1) (u2 - b2)) as (E0 & E1 & E2);
    [lra |].
  array_eq; lra.
Qed.

Lemma exact_least_squares (A : mat R) (b x : vec3 R) :
  mulv A x = b -> least_squares A b x.
Proof.
  intros Hx y. rewrite Hx.
  destruct (mulv A y) as [u0 u1 u2], b as [b0 b1 b2].
  unfold norm2, vsub; entries.
  replace ((b0 - b0) * (b0 - b0) + (b1 - b1) * (b1 - b1) + (b2 - b2) * (b2 - b2))
    with 0 by ring.
  generalize (u0 - b0) (u1 - b1) (u2 - b2); intros; nra.
Qed.

(** ** Scalar multiples *)

Lemma mscale_mmul_l (c : R) (A B : mat R) :
  mmul (mscale c A) B = mscale c (mmul A B).
Proof. unfold mscale; by_entries. Qed.

Lemma mscale_mscale (a b : R) (A : mat R) :
  mscale a (mscale b A) = mscale (a * b) A.
Proof. unfold mscale; by_entries. Qed.

Lemma mscale_1 (A : mat R) : mscale 1 A = A.
Proof. unfold mscale; by_entries. Qed.

Lemma mmul_mopp_r (A B : mat R) : mmul A (mopp B) = mscale (-1) (mmul A B).
Proof. unfold mscale; by_entries. Qed.

Lemma mulv_mopp (A : mat R) (x : vec3 R) : mulv (mopp A) x = vopp (mulv A x).
Proof. by_entries. Qed.

Lemma vopp_vopp (x : vec3 R) : vopp (vopp x) = x.
Proof. by_entries. Qed.

Lemma mulv_mmul (A B : mat R) (x : vec3 R) :
  mulv (mmul A B) x = mulv A (mulv B x).
Proof. by_entries. Qed.

Lemma mulv_mscale (c : R) (A : mat R) (x : vec3 R) :
  mulv (mscale c A) x = vmap (fun t => c * t) (mulv A x).
Proof. unfold mscale; by_entries. Qed.

Lemma mmul34_hstack (K Q : mat R) (T : vec3 R) :
  mmul34 K (hstack Q T) = hstack (mmul K Q) (mulv K T).
Proof. by_entries. Qed.

Lemma hstack_leading_last (P : mat34 R) : hstack (leading3 P) (lastcol P) = P.
Proof. by_entries. Qed.

Lemma leading3_hstack (Q : mat R) (T : vec3 R) : leading3 (hstack Q T) = Q.
Proof. by_entries. Qed.

Lemma lastcol_hstack (Q : mat R) (T : vec3 R) : lastcol (hstack Q T) = T.
Proof. by_entries. Qed.

Lemma mscale34_hstack (c : R) (Q : mat R) (T : vec3 R) :
  mscale34 c (hstack Q T) = hstack (mscale c Q) (vmap (fun t => c * t) T).
Proof. unfold mscale; by_entries. Qed.

(** ** One run of [KRT_from_P] on a nonsingular leading block *)

Lemma nonsingular_factor (r q H : mat R) :
  upper r -> rotation q -> mmul r q = H -> det H <> 0 -> nonzero_diagonal r.
Proof.
  intros Hr [_ Hq] Hp Hd. rewrite <- Hp, det_mmul, Hq, (upper_det _ Hr) in Hd.
  unfold nonzero_diagonal. repeat split; intros Hz; rewrite Hz in Hd; lra.
Qed.

(** Everything the later theorems use about a run: the value returned, its
    canonical form, the scale [s] relating [K Q] to the leading block, and
    the camera centre [C] that [lstsq] returned. *)
Lemma KRT_from_P_run (la : LinAlg R) (P : mat34 R) :
  det (leading3 P) <> 0 -> library_contract la P ->
  exists K Q T C s,
    KRT_from_P la P = Ok (K, Q, T) /\
    canonical_K K /\ rotation Q /\ s <> 0 /\
    mmul K Q = mscale s (leading3 P) /\
    lstsq la (mopp (leading3 P)) (lastcol P) = Ok C /\
    mulv (leading3 P) C = vopp (lastcol P) /\
    T = mulv (mopp Q) C.
Proof.
  intros Hd [Hqr (C & Hcall & Hls)].
  destruct (rf_rq_spec _ _ Hqr) as (r & q & Hrf & Hr & Hq & Hp).
  destruct (nonsingular_factor _ _ _ Hr Hq Hp Hd) as (N0 & N1 & N2).
  destruct (scale_normalize_spec r N2) as (Hsc & Hone & Hup & Hnz).
  specialize (Hup Hr). specialize (Hnz (conj N0 (conj N1 N2))).
  destruct (sign_canonicalize_spec _ q Hnz) as (Hprod & Hpos & Hup' & Hone' & Hort).
  specialize (Hup' Hup). specialize (Hone' Hone). specialize (Hort (proj1 Hq)).
  destruct (proper_rotation_fix_spec _ Hort) as (Hrot & Hfix).
  assert (Hsolve : mulv (leading3 P) C = vopp (lastcol P)).
  { assert (Hd' : det (mopp (leading3 P)) <> 0) by (rewrite det_mopp; lra).
    pose proof (least_squares_exact _ _ _ Hd' Hls) as E.
    rewrite mulv_mopp in E. rewrite <- E. symmetry; apply vopp_vopp. }
  assert (Hbase : mmul (fst (sign_canonicalize (scale_normalize r) q))
                       (snd (sign_canonicalize (scale_normalize r) q))
                  = mscale (/ e2 (e2 r)) (leading3 P)).
  { rewrite Hprod, <- Hp.
    replace (mmul r q) with (mmul (mscale (e2 (e2 r)) (scale_normalize r)) q)
      by now rewrite Hsc.
    rewrite mscale_mmul_l, mscale_mscale, Rinv_l, mscale_1; auto. }
  unfold KRT_from_P. rewrite Hrf. cbn [bind].
  destruct (sign_canonicalize (scale_normalize r) q) as [K Q1] eqn:Hcan.
  cbn [fst snd] in *. rewrite Hcall. cbn [bind].
  exists K, (proper_rotation_fix Q1), (mulv (mopp (proper_rotation_fix Q1)) C), C.
  assert (Hcanon : canonical_K K).
  { destruct Hpos as (P0 & P1 & _). unfold canonical_K; auto. }
  assert (Hinv : / e2 (e2 r) <> 0) by now apply Rinv_neq_0_compat.
  destruct Hfix as [[_ HQ] | [_ HQ]]; rewrite HQ in *.
  - exists (/ e2 (e2 r)). repeat (split; [assumption || reflexivity |]).
    reflexivity.
  - exists (- / e2 (e2 r)).
    split; [reflexivity |]. split; [assumption |]. split; [assumption |].
    split; [lra |].
    split; [| split; [reflexivity | split; [assumption | reflexivity]]].
    rewrite mmul_mopp_r, Hbase, mscale_mscale. f_equal; ring.
Qed.

(** ** Uniqueness of the canonical factorisation *)

Lemma gram_orthogonal (K Q : mat R) :
  orthogonal Q ->
  mmul (mmul K Q) (transpose (mmul K Q)) = mmul K (transpose K).
Proof.
  intros [HQ _].
  now rewrite transpose_mmul, mmul_assoc, <- (mmul_assoc Q), HQ, mmul_1_l.
Qed.

Lemma gram_mscale (c : R) (M : mat R) :
  mmul (mscale c M) (transpose (mscale c M)) =
  mscale (c * c) (mmul M (transpose M)).
Proof. unfold mscale; by_entries. Qed.

Lemma adjugate_mmul (K Q : mat R) :
  mmul (adjugate K) (mmul K Q) = mscale (det K) Q.
Proof. unfold mscale; intros; split_arrays; cbv [adjugate]; entries; array_eq; ring. Qed.

Lemma det_mscale (c : R) (M : mat R) : det (mscale c M) = c * c * c * det M.
Proof. unfold mscale; by_entries. Qed.

Lemma mscale_cancel (d : R) (A B : mat R) :
  d <> 0 -> mscale d A = mscale d B -> A = B.
Proof.
  intros Hd HAB. unfold mscale in HAB. split_arrays.
  cbv [mmap vmap e0 e1 e2] in HAB.
  injection HAB; intros. array_eq; eapply Rmult_eq_reg_l; eauto.
Qed.

Lemma canonical_det (K : mat R) : canonical_K K -> det K <> 0.
Proof.
  intros (HU & H0 & H1 & H2). rewrite (upper_det _ HU), H2.
  assert (0 < e0 (e0 K) * e1 (e1 K)) by now apply Rmult_lt_0_compat.
  lra.
Qed.

Lemma pos_square_eq (x y : R) : 0 < x -> 0 < y -> x * x = y * y -> x = y.
Proof. intros Hx Hy Hs. nra. Qed.

(** A canonical triangular factor is determined by its Gram matrix up to
    the scale: from [K1 K1^T = s K2 K2^T] follow [s = 1] and [K1 = K2]. *)
Lemma canonical_gram_unique (K1 K2 : mat R) (s : R) :
  canonical_K K1 -> canonical_K K2 ->
  mmul K1 (transpose K1) = mscale s (mmul K2 (transpose K2)) ->
  s = 1 /\ K1 = K2.
Proof.
  unfold canonical_K, upper, mscale.
  destruct K1 as [[a1 b1 d1] [x1 e1' f1'] [y1 z1 w1]].
  destruct K2 as [[a2 b2 d2] [x2 e2' f2'] [y2 z2 w2]].
  cbv [e0 e1 e2]. intros ((-> & -> & ->) & A1 & E1 & ->) ((-> & -> & ->) & A2 & E2 & ->).
  entries. intros HG. injection HG.
  intros G22 G21 G20 G12 G11 G10 G02 G01 G00.
  assert (Hs : s = 1) by lra. subst s.
  assert (Hf : f1' = f2') by lra. subst f2'.
  assert (Hd : d1 = d2) by lra. subst d2.
  assert (He : e1' = e2') by (apply pos_square_eq; auto; lra). subst e2'.
  assert (Hb : b1 = b2).
  { apply (Rmult_eq_reg_r e1'); [lra | lra]. }
  subst b2.
  assert (Ha : a1 = a2) by (apply pos_square_eq; auto; lra). subst a2.
  auto.
Qed.

(** Two canonical pairs whose products agree up to a nonzero scale are
    equal. *)
Lemma canonical_unique (K1 Q1 K2 Q2 : mat R) (c : R) :
  canonical_K K1 -> canonical_K K2 -> rotation Q1 -> rotation Q2 ->
  mmul K1 Q1 = mscale c (mmul K2 Q2) ->
  K1 = K2 /\ Q1 = Q2.
Proof.
  intros HK1 HK2 [HO1 HD1] [HO2 HD2] Heq.
  assert (HG : mmul K1 (transpose K1) = mscale (c * c) (mmul K2 (transpose K2))).
  { rewrite <- (gram_orthogonal K1 Q1 HO1), Heq, gram_mscale.
    now rewrite (gram_orthogonal K2 Q2 HO2). }
  destruct (canonical_gram_unique _ _ _ HK1 HK2 HG) as [Hcc ->].
  split; [reflexivity |].
  assert (HQ : Q1 = mscale c Q2).
  { apply (mscale_cancel _ _ _ (canonical_det _ HK2)).
    rewrite <- adjugate_mmul, Heq, <- mscale_mmul_l.
    rewrite <- (adjugate_mmul K2 (mscale c Q2)). f_equal.
    unfold mscale; by_entries. }
  assert (Hc : c = 1).
  { apply (f_equal det) in HQ. rewrite det_mscale, HD1, HD2 in HQ.
    destruct (square_one _ Hcc) as [-> | ->]; lra. }
  rewrite HQ, Hc. apply mscale_1.
Qed.

(** ** Closeness *)

Lemma close_refl (eps x : R) : 0 <= eps -> close eps x x.
Proof.
  intros He; unfold close. replace (x - x) with 0 by ring.
  now rewrite Rabs_R0.
Qed.

Lemma vec_close_refl (eps : R) (v : vec3 R) : 0 <= eps -> vec_close eps v v.
Proof. intros He; repeat split; now apply close_refl. Qed.

Lemma mat_close_refl (eps : R) (A : mat R) : 0 <= eps -> mat_close eps A A.
Proof. intros He; repeat split; now apply close_refl. Qed.

(** ** A library instance

    On an upper triangular argument a Householder factorisation has nothing
    to eliminate: every reflector is the identity, and [qr] returns the
    identity and the argument itself.  On a nonsingular matrix [lstsq]
    returns the solution of the system.  [la_triangular] behaves so on all
    arguments; it meets the contracts wherever the leading block is upper
    triangular and nonsingular. *)

Definition la_triangular : LinAlg R :=
  {| qr := fun A => Ok (identity, A);
     lstsq := fun A b => Ok (cramer A b) |}.

Lemma la_triangular_contract (P : mat34 R) :
  upper (leading3 P) -> det (leading3 P) <> 0 ->
  library_contract la_triangular P.
Proof.
  intros HU HD; split.
  - exists identity, (flip (transpose (leading3 P))).
    split; [reflexivity |]. split; [apply orthogonal_identity |].
    split; [now apply upper_flip_transpose | apply mmul_1_l].
  - exists (cramer (mopp (leading3 P)) (lastcol P)).
    split; [reflexivity |]. apply exact_least_squares, cramer_solves.
    rewrite det_mopp; lra.
Qed.

(** ** A factorisation for every matrix

    The contract of [qr] can be met on every argument: three plane
    rotations bring any 3x3 matrix to upper triangular form.  (numpy's
    LAPACK routine uses reflections; the theorems below depend on the
    contract only, not on which factorisation is returned.) *)

Definition hypot (a b : R) : R := R_sqrt.sqrt (a * a + b * b).

Definition givens_c (a b : R) : R :=
  if Req_dec_T (hypot a b) 0 then 1 else a / hypot a b.

Definition givens_s (a b : R) : R :=
  if Req_dec_T (hypot a b) 0 then 0 else b / hypot a b.

(** The rotations of the planes (0,1), (0,2) and (1,2). *)
Definition rot01 (c s : R) : mat R := V3 (V3 c s 0) (V3 (- s) c 0) (V3 0 0 1).
Definition rot02 (c s : R) : mat R := V3 (V3 c 0 s) (V3 0 1 0) (V3 (- s) 0 c).
Definition rot12 (c s : R) : mat R := V3 (V3 1 0 0) (V3 0 c s) (V3 0 (- s) c).

Definition qr_givens (A : mat R) : mat R * mat R :=
  let G1 := rot01 (givens_c (e0 (e0 A)) (e0 (e1 A)))
                  (givens_s (e0 (e0 A)) (e0 (e1 A))) in
  let A1 := mmul G1 A in
  let G2 := rot02 (givens_c (e0 (e0 A1)) (e0 (e2 A1)))
                  (givens_s (e0 (e0 A1)) (e0 (e2 A1))) in
  let A2 := mmul G2 A1 in
  let G3 := rot12 (givens_c (e1 (e1 A2)) (e1 (e2 A2)))
                  (givens_s (e1 (e1 A2)) (e1 (e2 A2))) in
  (transpose (mmul G3 (mmul G2 G1)), mmul G3 A2).

Definition la_givens : LinAlg R :=
  {| qr := fun A => Ok (qr_givens A);
     lstsq := fun A b => Ok (cramer A b) |}.

Lemma hypot_sqr (a b : R) : hypot a b * hypot a b = a * a + b * b.
Proof. unfold hypot. apply sqrt_sqrt. nra. Qed.

Lemma hypot_zero (a b : R) : hypot a b = 0 -> a = 0 /\ b = 0.
Proof.
  intros Hz. pose proof (hypot_sqr a b) as Hs. rewrite Hz in Hs.
  split; nra.
Qed.

Lemma givens_unit (a b : R) :
  givens_c a b * givens_c a b + givens_s a b * givens_s a b = 1.
Proof.
  unfold givens_c, givens_s. destruct (Req_dec_T (hypot a b) 0) as [Hz | Hnz].
  - ring.
  - pose proof (hypot_sqr a b) as Hs.
    replace (a / hypot a b * (a / hypot a b) + b / hypot a b * (b / hypot a b))
      with ((a * a + b * b) / (hypot a b * hypot a b)) by (field; assumption).
    rewrite <- Hs. field. assumption.
Qed.

Lemma givens_annihilates (a b : R) :
  - givens_s a b * a + givens_c a b * b = 0.
Proof.
  unfold givens_c, givens_s. destruct (Req_dec_T (hypot a b) 0) as [Hz | Hnz].
  - destruct (hypot_zero a b Hz) as [-> ->]. ring.
  - field. assumption.
Qed.

Lemma orthogonal_rot01 (c s : R) : c * c + s * s = 1 -> orthogonal (rot01 c s).
Proof. intros Hu; split; unfold rot01; entries; array_eq; lra. Qed.

Lemma orthogonal_rot02 (c s : R) : c * c + s * s = 1 -> orthogonal (rot02 c s).
Proof. intros Hu; split; unfold rot02; entries; array_eq; lra. Qed.

Lemma orthogonal_rot12 (c s : R) : c * c + s * s = 1 -> orthogonal (rot12 c s).
Proof. intros Hu; split; unfold rot12; entries; array_eq; lra. Qed.

Lemma orthogonal_transpose (Q : mat R) : orthogonal Q -> orthogonal (transpose Q).
Proof.
  intros [HQ HQ']; split; rewrite transpose_transpose; assumption.
Qed.

(** [qr_givens] meets the contract of [qr] on every matrix. *)
Lemma qr_givens_spec (A : mat R) :
  orthogonal (fst (qr_givens A)) /\ upper (snd (qr_givens A)) /\
  mmul (fst (qr_givens A)) (snd (qr_givens A)) = A.
Proof.
  unfold qr_givens. cbv zeta. cbn [fst snd].
  set (c1 := givens_c (e0 (e0 A)) (e0 (e1 A))).
  set (s1 := givens_s (e0 (e0 A)) (e0 (e1 A))).
  pose proof (givens_unit (e0 (e0 A)) (e0 (e1 A))) as U1.
  pose proof (givens_annihilates (e0 (e0 A)) (e0 (e1 A))) as Z1.
  fold c1 s1 in U1, Z1.
  set (A1 := mmul (rot01 c1 s1) A).
  assert (Z10 : e0 (e1 A1) = 0).
  { subst A1. destruct A as [[a b c] [d e f] [g h i]].
    revert Z1. unfold rot01; entries. intros; lra. }
  set (c2 := givens_c (e0 (e0 A1)) (e0 (e2 A1))).
  set (s2 := givens_s (e0 (e0 A1)) (e0 (e2 A1))).
  pose proof (givens_unit (e0 (e0 A1)) (e0 (e2 A1))) as U2.
  pose proof (givens_annihilates (e0 (e0 A1)) (e0 (e2 A1))) as Z2.
  fold c2 s2 in U2, Z2.
  set (A2 := mmul (rot02 c2 s2) A1).
  assert (Z20 : e0 (e1 A2) = 0 /\ e0 (e2 A2) = 0).
  { subst A2. destruct A1 as [[a b c] [d e f] [g h i]].
    revert Z2 Z10. unfold rot02; entries. intros; split; lra. }
  set (c3 := givens_c (e1 (e1 A2)) (e1 (e2 A2))).
  set (s3 := givens_s (e1 (e1 A2)) (e1 (e2 A2))).
  pose proof (givens_unit (e1 (e1 A2)) (e1 (e2 A2))) as U3.
  pose proof (givens_annihilates (e1 (e1 A2)) (e1 (e2 A2))) as Z3.
  fold c3 s3 in U3, Z3.
  assert (HG : orthogonal (mmul (rot12 c3 s3) (mmul (rot02 c2 s2) (rot01 c1 s1)))).
  { repeat apply orthogonal_mmul;
      [now apply orthogonal_rot12 | now apply orthogonal_rot02
       | now apply orthogonal_rot01]. }
  split; [now apply orthogonal_transpose |]. split.
  - destruct Z20 as [Za Zb]. destruct A2 as [[a b c] [d e f] [g h i]].
    revert Z3 Za Zb. unfold upper, rot12; entries. intros Z3 -> ->.
    repeat split; lra.
  - subst A2 A1. destruct HG as [_ HG].
    replace (mmul (rot12 c3 s3) (mmul (rot02 c2 s2) (mmul (rot01 c1 s1) A)))
      with (mmul (mmul (rot12 c3 s3) (mmul (rot02 c2 s2) (rot01 c1 s1))) A)
      by now rewrite !mmul_assoc.
    rewrite <- mmul_assoc, HG. apply mmul_1_l.
Qed.

(** [la_givens] meets the contract of the library on every input with a
    nonsingular leading block. *)
Lemma la_givens_contract (P : mat34 R) :
  det (leading3 P) <> 0 -> library_contract la_givens P.
Proof.
  intros HD; split.
  - destruct (qr_givens_spec (flip (transpose (leading3 P)))) as (HQ & HU & HP).
    destruct (qr_givens (flip (transpose (leading3 P)))) as [q r] eqn:E.
    exists q, r. cbn [la_givens qr]. rewrite E. auto.
  - exists (cramer (mopp (leading3 P)) (lastcol P)).
    split; [reflexivity |]. apply exact_least_squares, cramer_solves.
    rewrite det_mopp; lra.
Qed.

(** ** The test input of [test2] *)

Definition P_test2 : mat34 R :=
  V3 (V4 2 0 (-10) 282)
     (V4 0 (-3) (-14) 417)
     (V4 0 0 (-1) (-18)).

Definition K_test2 : mat R := V3 (V3 2 0 10) (V3 0 3 14) (V3 0 0 1).
Definition R_test2 : mat R := V3 (V3 1 0 0) (V3 0 (-1) 0) (V3 0 0 (-1)).
Definition T_test2 : vec3 R := V3 231 223 (-18).

Lemma canonical_K_test2 : canonical_K K_test2.
Proof. unfold canonical_K, upper; cbn. repeat split; lra. Qed.

Lemma rotation_R_test2 : rotation R_test2.
Proof.
  split; [split |]; unfold R_test2; entries; array_eq; ring.
Qed.

Lemma leading3_test2 : leading3 P_test2 = mmul K_test2 R_test2.
Proof. unfold P_test2, K_test2, R_test2; entries; array_eq; ring. Qed.

Lemma det_test2 : det (leading3 P_test2) <> 0.
Proof. unfold P_test2; entries. lra. Qed.

Lemma contract_test2 : library_contract la_triangular P_test2.
Proof.
  apply la_triangular_contract; [| apply det_test2].
  unfold upper; cbn; auto.
Qed.

(** ** Properties of [rf_rq] *)








(** ** Properties of [KRT_from_P] *)

Lemma leading3_mmul34 (K : mat R) (M : mat34 R) :
  leading3 (mmul34 K M) = mmul K (leading3 M).
Proof. by_entries. Qed.

Lemma leading3_mscale34 (c : R) (P : mat34 R) :
  leading3 (mscale34 c P) = mscale c (leading3 P).
Proof. unfold mscale; by_entries. Qed.

Lemma lastcol_mscale34 (c : R) (P : mat34 R) :
  lastcol (mscale34 c P) = vmap (fun t => c * t) (lastcol P).
Proof. by_entries. Qed.

Lemma translation_column (K Q H : mat R) (C p4 : vec3 R) (s : R) :
  mmul K Q = mscale s H -> mulv H C = vopp p4 ->
  mulv K (mulv (mopp Q) C) = vmap (fun t => s * t) p4.
Proof.
  intros HKQ HC.
  rewrite mulv_mopp.
  assert (E : mulv K (mulv Q C) = vmap (fun t => s * t) (vopp p4)).
  { now rewrite <- mulv_mmul, HKQ, mulv_mscale, HC. }
  destruct (mulv Q C) as [u0 u1 u2], p4 as [p0 p1 p2], K as [[? ? ?] [? ? ?] [? ? ?]].
  revert E; entries; intros E; injection E; intros E2 E1 E0.
  array_eq; lra.
Qed.


Lemma det_constructed (K0 R0 : mat R) (T0 : vec3 R) :
  upper K0 -> positive_diagonal K0 -> rotation R0 ->
  det (leading3 (mmul34 K0 (hstack R0 T0))) <> 0.
Proof.
  intros HU (P0 & P1 & P2) [_ HD].
  rewrite leading3_mmul34, leading3_hstack, det_mmul, HD, (upper_det _ HU).
  assert (0 < e0 (e0 K0) * e1 (e1 K0)) by now apply Rmult_lt_0_compat.
  assert (0 < e0 (e0 K0) * e1 (e1 K0) * e2 (e2 K0)) by now apply Rmult_lt_0_compat.
  lra.
Qed.



Lemma upper_K_test2 : upper K_test2.
Proof. apply canonical_K_test2. Qed.

Lemma positive_diagonal_K_test2 : positive_diagonal K_test2.
Proof. unfold positive_diagonal; cbn; repeat split; lra. Qed.




Lemma least_squares_mopp (A : mat R) (b x : vec3 R) :
  least_squares (mopp A) b x -> least_squares A (vopp b) x.
Proof.
  intros Hls y. specialize (Hls y).
  assert (E : forall z, norm2 (vsub (mulv A z) (vopp b))
                        = norm2 (vsub (mulv (mopp A) z) b)).
  { intros z. unfold norm2, vsub. by_entries. }
  now rewrite !E.
Qed.

(** C7. On every input on which [KRT_from_P] returns, with [lstsq] meeting
    its contract, there is a camera centre [C] -- the value [lstsq]
    returned -- that is a least-squares solution of [H C = -p4], where [H]
    is the leading block and [p4] the fourth column, and the returned
    translation is [T = -(R C)] for the returned [R], which is the rotation
    after the determinant fix: [R] is [proper_rotation_fix] of the
    sign-canonicalised factor.  When [H] is nonsingular, [H C = -p4] holds
    exactly. *)
Theorem KRT_from_P_translation (la : LinAlg R) (P : mat34 R)
    (K Q : mat R) (T : vec3 R) :
  KRT_from_P la P = Ok (K, Q, T) ->
  lstsq_contract la (mopp (leading3 P)) (lastcol P) ->
  exists C r q,
    lstsq la (mopp (leading3 P)) (lastcol P) = Ok C /\
    least_squares (leading3 P) (vopp (lastcol P)) C /\
    (det (leading3 P) <> 0 -> mulv (leading3 P) C = vopp (lastcol P)) /\
    rf_rq la (leading3 P) = Ok (r, q) /\
    Q = proper_rotation_fix (snd (sign_canonicalize (scale_normalize r) q)) /\
    T = vopp (mulv Q C).
Proof.
  intros Hrun (C & Hcall & Hls).
  destruct (KRT_from_P_inversion la P K Q T Hrun)
    as (r & q & C' & Hrf & Hcall' & _ & HQ & HT).
  rewrite Hcall in Hcall'. injection Hcall' as <-.
  pose proof (least_squares_mopp _ _ _ Hls) as Hls'.
  exists C, r, q. split; [assumption |]. split; [assumption |].
  split; [intros Hd; now apply least_squares_exact |].
  split; [assumption |]. split; [assumption |].
  rewrite HT. apply mulv_mopp.
Qed.

(** ** The run on the test input *)

Lemma KRT_from_P_test2_value (la : LinAlg R) :
  library_contract la P_test2 ->
  KRT_from_P la P_test2 = Ok (K_test2, R_test2, T_test2).
Proof.
  intros Hla.
  destruct (KRT_from_P_run la P_test2 det_test2 Hla)
    as (K & Q & T & C & s & Hrun & HK & HQ & Hs & HKQ & _ & HC & HT).
  rewrite leading3_test2 in HKQ.
  destruct (canonical_unique K Q K_test2 R_test2 s HK canonical_K_test2
              HQ rotation_R_test2 HKQ) as [-> ->].
  assert (EC : C = V3 (-231) 223 (-18)).
  { apply (mulv_injective (leading3 P_test2)); [apply det_test2 |].
    rewrite HC. unfold P_test2; entries; array_eq; ring. }
  rewrite Hrun, HT, EC. do 2 f_equal.
  unfold R_test2, T_test2; entries; array_eq; ring.
Qed.

Lemma KRT_from_P_translation_witness :
  exists C r q,
    lstsq la_triangular (mopp (leading3 P_test2)) (lastcol P_test2) = Ok C /\
    least_squares (leading3 P_test2) (vopp (lastcol P_test2)) C /\
    (det (leading3 P_test2) <> 0 ->
     mulv (leading3 P_test2) C = vopp (lastcol P_test2)) /\
    rf_rq la_triangular (leading3 P_test2) = Ok (r, q) /\
    R_test2 = proper_rotation_fix (snd (sign_canonicalize (scale_normalize r) q)) /\
    T_test2 = vopp (mulv R_test2 C).
Proof.
  apply (KRT_from_P_translation la_triangular P_test2 K_test2 R_test2 T_test2).
  - apply KRT_from_P_test2_value, contract_test2.
  - apply contract_test2.
Defined.

(** C9. On [P = [[2,0,-10,282],[0,-3,-14,417],[0,0,-1,-18]]], when the
    library meets its contract, [KRT_from_P] returns
    [K = [[2,0,10],[0,3,14],[0,0,1]]], [R = diag(1,-1,-1)] and
    [T = [231,223,-18]] within 1e-6 (exactly, in exact arithmetic:
    [KRT_from_P_test2_value]); the returned [R] has determinant +1 and
    [K [R | T] = P]. *)
Theorem KRT_from_P_test2 (la : LinAlg R) :
  library_contract la P_test2 ->
  exists K Q T,
    KRT_from_P la P_test2 = Ok (K, Q, T) /\
    mat_close 1e-6 K K_test2 /\
    mat_close 1e-6 Q R_test2 /\
    vec_close 1e-6 T T_test2 /\
    det Q = 1 /\
    mmul34 K (hstack Q T) = P_test2.
Proof.
  intros Hla. exists K_test2, R_test2, T_test2.
  split; [now apply KRT_from_P_test2_value |].
  split; [apply mat_close_refl; lra |].
  split; [apply mat_close_refl; lra |].
  split; [apply vec_close_refl; lra |].
  split; [apply rotation_R_test2 |].
  unfold K_test2, R_test2, T_test2, P_test2; entries; array_eq; ring.
Qed.

Lemma KRT_from_P_test2_witness :
  exists K Q T,
    KRT_from_P la_triangular P_test2 = Ok (K, Q, T) /\
    mat_close 1e-6 K K_test2 /\
    mat_close 1e-6 Q R_test2 /\
    vec_close 1e-6 T T_test2 /\
    det Q = 1 /\
    mmul34 K (hstack Q T) = P_test2.
Proof.
  apply (KRT_from_P_test2 la_triangular), contract_test2.
Defined.

Lemma vscale_cancel (c : R) (u v : vec3 R) :
  c <> 0 -> vmap (fun t => c * t) u = vmap (fun t => c * t) v -> u = v.
Proof.
  intros Hc Huv. split_arrays. cbv [vmap e0 e1 e2] in Huv.
  injection Huv; intros. array_eq; eapply Rmult_eq_reg_l; eauto.
Qed.



(** With the factorisation by plane rotations and the solution by
    Cramer's rule, no assumption on the library is left: on every input
    with a nonsingular leading block the run returns a canonical [K], a
    proper rotation [R], and a [T] with [K [R | T] = s P]. *)
Corollary KRT_from_P_givens (P : mat34 R) :
  det (leading3 P) <> 0 ->
  exists K Q T s,
    KRT_from_P la_givens P = Ok (K, Q, T) /\
    canonical_K K /\ rotation Q /\ s <> 0 /\
    mmul34 K (hstack Q T) = mscale34 s P.
Proof.
  intros Hd. pose proof (la_givens_contract P Hd) as Hla.
  destruct (KRT_from_P_run la_givens P Hd Hla)
    as (K & Q & T & C & s & Hrun & HK & HQ & Hs & HKQ & _ & HC & HT).
  exists K, Q, T, s. repeat (split; [assumption |]).
  rewrite mmul34_hstack, HT, (translation_column K Q _ C _ s HKQ HC), HKQ.
  rewrite <- mscale34_hstack. now rewrite hstack_leading_last.
Qed.

(** ** The sign canonicalisation step *)

(** A triangular factor with a zero on its diagonal, and the rank-2
    projection matrix whose leading block it is. *)
Definition K_degenerate : mat R := V3 (V3 1 1 0) (V3 0 0 0) (V3 0 0 1).
Definition P_degenerate : mat34 R := hstack K_degenerate (V3 0 0 0).




End Exact.

(** * Part III: binary64 arithmetic *)

Module Binary64.

Local Open Scope float_scope.

(** A projection matrix whose leading block [diag(1, 1, 0)] has rank 2. *)
Definition P_singular : mat34 float :=
  V3 (V4 1 0 0 1)
     (V4 0 1 0 2)
     (V4 0 0 0 3).

(** What the library returns on [P_singular].  The argument of [qr] is
    [diag(0, 1, 1)], already upper triangular, so every Householder
    reflector is the identity: [q] is the identity and [r] the argument.
    The argument of [lstsq] is [diag(-1, -1, 0)] with right-hand side
    [(1, 2, 3)], whose least-squares solution of least norm is
    [(-1, -2, 0)]. *)
Definition la_singular : LinAlg float :=
  {| qr := fun A => Ok (identity, A);
     lstsq := fun _ _ => Ok (V3 (-1) (-2) 0) |}.

Definition all_nan : vec3 float := V3 nan nan nan.

(** [la_singular] is a factorisation and a least-squares solution on
    [P_singular], checked in binary64, where every operation involved is
    exact: [q r] is the argument, [q q^T] is the identity, [r] is upper
    triangular, and the residual of the solution is orthogonal to the
    columns of the matrix (the normal equations). *)
Lemma la_singular_sound :
  let A := flip (transpose (leading3 P_singular)) in
  let M := mopp (leading3 P_singular) in
  let b := lastcol P_singular in
  exists q r x,
    qr la_singular A = Ok (q, r) /\
    mmul q r = A /\ mmul q (transpose q) = identity /\
    (e0 (e1 r) = 0 /\ e0 (e2 r) = 0 /\ e1 (e2 r) = 0) /\
    lstsq la_singular M b = Ok x /\
    mulv (transpose M) (V3 (e0 (mulv M x) - e0 b) (e1 (mulv M x) - e1 b)
                           (e2 (mulv M x) - e2 b)) = V3 0 0 0.
Proof.
  cbv zeta. do 3 eexists. split; [reflexivity |].
  split; [vm_compute; reflexivity |]. split; [vm_compute; reflexivity |].
  split; [vm_compute; auto |]. split; [reflexivity |].
  vm_compute; reflexivity.
Qed.

(** On the rank-2 block [KRT_from_P] returns, and what it returns holds
    NaN: the determinant of the block is 0, no error is raised, [K] is NaN
    throughout, and the last row of [R] and the last entry of [T] are NaN. *)
Lemma KRT_from_P_singular_returns :
  det (leading3 P_singular) = 0 /\
  exists K Q T,
    KRT_from_P la_singular P_singular = Ok (K, Q, T) /\
    K = V3 all_nan all_nan all_nan /\
    Q = V3 (V3 1 0 0) (V3 0 1 0) all_nan /\
    T = V3 1 2 nan /\
    is_nan (e2 (e2 K)) = true /\ is_finite (e2 (e2 K)) = false.
Proof.
  split; [vm_compute; reflexivity |].
  do 3 eexists. split; [vm_compute; reflexivity |].
  repeat split; vm_compute; reflexivity.
Qed.

Lemma KRT_from_P_returns_witness :
  exists K Q T, KRT_from_P la_singular P_singular = Ok (K, Q, T).
Proof.
  apply (KRT_from_P_returns la_singular P_singular identity
           (flip (transpose (leading3 P_singular))) (V3 (-1) (-2) 0));
    reflexivity.
Defined.

(** ** The scale normalisation on a zero or non-finite corner *)

(** The normaliser [K[2,2]] is zero or not finite. *)
Definition degenerate (x : float) : bool :=
  is_zero x || is_infinity x || is_nan x.

Lemma SFcompare_finite_refl (s : bool) (m : positive) (e : Z) :
  SFcompare (S754_finite s m e) (S754_finite s m e) = Some Eq.
Proof.
  unfold SFcompare. rewrite Z.compare_refl, Pos.compare_cont_refl.
  now destruct s.
Qed.

(** IEEE 754: 0/0, inf/inf and NaN/NaN are NaN. *)
Lemma div_self_degenerate (x : float) :
  degenerate x = true -> is_nan (x / x) = true.
Proof.
  unfold degenerate, is_zero, is_infinity, is_nan.
  rewrite !eqb_spec, div_spec, abs_spec.
  change (Prim2SF 0) with (S754_zero false).
  change (Prim2SF infinity) with (S754_infinity false).
  destruct (Prim2SF x) as [s | s | | s m e]; try reflexivity.
  unfold SFeqb at 3. rewrite SFcompare_finite_refl.
  destruct s; cbn; discriminate.
Qed.

(** C5 (as the code has it). The scale normalisation divides every entry
    of [K] by [K[2,2]] with no guard: it is a total function, with no
    failure outcome, and whenever [K[2,2]] is zero or not finite the
    division is carried out all the same and leaves NaN at [K[2,2]]. *)
Theorem scale_normalize_unguarded (K : mat float) :
  degenerate (e2 (e2 K)) = true ->
  scale_normalize K = mmap (fun x => x / e2 (e2 K)) K /\
  is_nan (e2 (e2 (scale_normalize K))) = true.
Proof.
  intros Hdeg. split; [reflexivity |].
  destruct K as [r0 r1 [k20 k21 k22]]. cbn in *.
  now apply div_self_degenerate.
Qed.

Lemma scale_normalize_unguarded_witness :
  scale_normalize (leading3 P_singular)
    = mmap (fun x => x / e2 (e2 (leading3 P_singular))) (leading3 P_singular) /\
  is_nan (e2 (e2 (scale_normalize (leading3 P_singular)))) = true.
Proof.
  apply (scale_normalize_unguarded (leading3 P_singular)). reflexivity.
Defined.

(** On [P_singular] the triangular factor reaches the normalisation with a
    zero corner; the division by it is carried out, gives a matrix of
    infinities and NaN, and the run goes on to its [return]. *)
Lemma scale_normalize_zero_corner :
  exists r q,
    rf_rq la_singular (leading3 P_singular) = Ok (r, q) /\
    e2 (e2 r) = 0 /\
    scale_normalize r =
      V3 (V3 infinity nan nan) (V3 nan infinity nan) (V3 nan nan nan) /\
    exists K Q T, KRT_from_P la_singular P_singular = Ok (K, Q, T).
Proof.
  do 2 eexists. split; [vm_compute; reflexivity |].
  split; [reflexivity |]. split; [vm_compute; reflexivity |].
  do 3 eexists. vm_compute; reflexivity.
Qed.

(** ** The test input in binary64 *)

Definition P_test2 : mat34 float :=
  V3 (V4 2 0 (-10) 282)
     (V4 0 (-3) (-14) 417)
     (V4 0 0 (-1) (-18)).

(** The argument of [qr] is upper triangular here too, and [lstsq] solves
    a nonsingular triangular system whose solution is [(-231, 223, -18)]. *)
Definition la_test2 : LinAlg float :=
  {| qr := fun A => Ok (identity, A);
     lstsq := fun _ _ => Ok (V3 (-231) 223 (-18)) |}.

(** [1e-6] is read as the nearest binary64 value, as Python reads it. *)
#[warnings="-inexact-float"]
Definition near (x y : float) : bool := abs (x - y) <=? 1e-6.

Definition vec3_near (u v : vec3 float) : bool :=
  near (e0 u) (e0 v) && near (e1 u) (e1 v) && near (e2 u) (e2 v).

Definition mat_near (A B : mat float) : bool :=
  vec3_near (e0 A) (e0 B) && vec3_near (e1 A) (e1 B) && vec3_near (e2 A) (e2 B).

(** The binary64 run on the test input: the triple of the comment in
    [test2], within 1e-6. *)
Lemma KRT_from_P_test2_binary64 :
  exists K Q T,
    KRT_from_P la_test2 P_test2 = Ok (K, Q, T) /\
    mat_near K (V3 (V3 2 0 10) (V3 0 3 14) (V3 0 0 1)) = true /\
    mat_near Q (V3 (V3 1 0 0) (V3 0 (-1) 0) (V3 0 0 (-1))) = true /\
    vec3_near T (V3 231 223 (-18)) = true /\
    det Q = 1.
Proof.
  do 3 eexists. split; [vm_compute; reflexivity |].
  repeat split; vm_compute; reflexivity.
Qed.

End Binary64.

(** * Part IV: further properties of the decomposition (exact arithmetic) *)

Module Decomposition.

Import Exact.
Local Open Scope R_scope.

(** ** What two runs on proportional inputs share *)

(** The data of a run, as [KRT_from_P_run] gives them, determine the
    result from the projection matrix up to its scale alone. *)
Lemma run_determined (H H' K K' Q Q' : mat R) (p p' C C' T T' : vec3 R)
    (s s' lam : R) :
  det H <> 0 -> lam <> 0 -> s <> 0 ->
  H' = mscale lam H -> p' = vmap (fun t => lam * t) p ->
  canonical_K K -> rotation Q -> mmul K Q = mscale s H ->
  mulv H C = vopp p -> T = mulv (mopp Q) C ->
  canonical_K K' -> rotation Q' -> mmul K' Q' = mscale s' H' ->
  mulv H' C' = vopp p' -> T' = mulv (mopp Q') C' ->
  K' = K /\ Q' = Q /\ T' = T.
Proof.
  intros Hd Hlam Hs -> -> HK HQ HKQ HC -> HK' HQ' HKQ' HC' ->.
  assert (Heq : mmul K' Q' = mscale (s' * lam * / s) (mmul K Q)).
  { rewrite HKQ', HKQ, !mscale_mscale. f_equal. field. assumption. }
  destruct (canonical_unique K' Q' K Q _ HK' HK HQ' HQ Heq) as [-> ->].
  assert (EC : C' = C).
  { apply (mulv_injective H); [assumption |].
    rewrite HC. apply (vscale_cancel lam); [assumption |].
    rewrite <- mulv_mscale, HC'. by_entries. }
  now rewrite EC.
Qed.

(** X1. Whatever factorisation and solution the library returns, as long
    as they meet the contracts, the result is the same: on a nonsingular
    leading block two libraries give equal triples. *)
Theorem KRT_from_P_library_independent (la1 la2 : LinAlg R) (P : mat34 R) :
  det (leading3 P) <> 0 ->
  library_contract la1 P -> library_contract la2 P ->
  exists K Q T,
    KRT_from_P la1 P = Ok (K, Q, T) /\ KRT_from_P la2 P = Ok (K, Q, T).
Proof.
  intros Hd H1 H2.
  destruct (KRT_from_P_run la1 P Hd H1)
    as (K & Q & T & C & s & Hrun & HK & HQ & Hs & HKQ & _ & HC & HT).
  destruct (KRT_from_P_run la2 P Hd H2)
    as (K' & Q' & T' & C' & s' & Hrun' & HK' & HQ' & Hs' & HKQ' & _ & HC' & HT').
  exists K, Q, T. split; [assumption |].
  destruct (run_determined (leading3 P) (leading3 P) K K' Q Q'
              (lastcol P) (lastcol P) C C' T T' s s' 1) as (-> & -> & ->);
    try assumption; try lra.
  - symmetry; apply mscale_1.
  - by_entries.
Qed.

Lemma KRT_from_P_library_independent_witness :
  exists K Q T,
    KRT_from_P la_triangular P_test2 = Ok (K, Q, T) /\
    KRT_from_P la_givens P_test2 = Ok (K, Q, T).
Proof.
  apply (KRT_from_P_library_independent la_triangular la_givens P_test2).
  - apply det_test2.
  - apply contract_test2.
  - apply la_givens_contract, det_test2.
Defined.

(** ** Composing and decomposing *)

Lemma mscale34_mmul34 (s : R) (K : mat R) (M : mat34 R) :
  mscale34 s (mmul34 K M) = mmul34 K (mscale34 s M).
Proof. by_entries. Qed.

Lemma compose_nonsingular (K0 R0 : mat R) (T0 : vec3 R) (s : R) :
  canonical_K K0 -> rotation R0 -> s <> 0 ->
  det (leading3 (mscale34 s (mmul34 K0 (hstack R0 T0)))) <> 0.
Proof.
  intros HK [_ HD] Hs.
  rewrite leading3_mscale34, leading3_mmul34, leading3_hstack.
  rewrite det_mscale, det_mmul, HD, Rmult_1_r.
  pose proof (canonical_det K0 HK) as HdK.
  repeat apply Rmult_integral_contrapositive_currified; assumption.
Qed.

(** The decomposition inverts the composition. *)
Lemma recover_canonical (la : LinAlg R) (K0 R0 : mat R) (T0 : vec3 R) (s : R) :
  canonical_K K0 -> rotation R0 -> s <> 0 ->
  library_contract la (mscale34 s (mmul34 K0 (hstack R0 T0))) ->
  KRT_from_P la (mscale34 s (mmul34 K0 (hstack R0 T0))) = Ok (K0, R0, T0).
Proof.
  intros HK0 HR0 Hs Hla.
  pose proof (compose_nonsingular K0 R0 T0 s HK0 HR0 Hs) as Hd.
  destruct (KRT_from_P_run la _ Hd Hla)
    as (K & Q & T & C & s' & Hrun & HK & HQ & Hs' & HKQ & _ & HC & HT).
  rewrite leading3_mscale34, leading3_mmul34, leading3_hstack in HKQ, HC.
  rewrite lastcol_mscale34 in HC.
  rewrite mscale_mscale in HKQ.
  destruct (canonical_unique K Q K0 R0 _ HK HK0 HQ HR0 HKQ) as [EK EQ].
  subst K Q.
  assert (E : mulv K0 (mulv R0 C) = mulv K0 (vopp T0)).
  { apply (vscale_cancel s); [assumption |].
    rewrite <- mulv_mmul, <- mulv_mscale, HC. by_entries. }
  apply mulv_injective in E; [| now apply canonical_det].
  rewrite Hrun, HT, mulv_mopp, E, vopp_vopp. reflexivity.
Qed.

(** X2. Round trip: from any nonzero multiple of [K0 [R0 | T0]], with
    [K0] upper triangular, [K0[0,0] > 0], [K0[1,1] > 0], [K0[2,2] = 1]
    and [R0] a proper rotation, [KRT_from_P] returns exactly
    [(K0, R0, T0)]. *)
Theorem KRT_from_P_recovers (la : LinAlg R) (K0 R0 : mat R) (T0 : vec3 R) (s : R) :
  canonical_K K0 -> rotation R0 -> s <> 0 ->
  library_contract la (mscale34 s (mmul34 K0 (hstack R0 T0))) ->
  KRT_from_P la (mscale34 s (mmul34 K0 (hstack R0 T0))) = Ok (K0, R0, T0).
Proof. exact (recover_canonical la K0 R0 T0 s). Qed.

Lemma contract_scaled_test2 :
  library_contract la_givens
    (mscale34 (-3) (mmul34 K_test2 (hstack R_test2 T_test2))).
Proof.
  apply la_givens_contract, compose_nonsingular;
    [apply canonical_K_test2 | apply rotation_R_test2 | lra].
Qed.

Lemma KRT_from_P_recovers_witness :
  KRT_from_P la_givens (mscale34 (-3) (mmul34 K_test2 (hstack R_test2 T_test2)))
    = Ok (K_test2, R_test2, T_test2).
Proof.
  apply (KRT_from_P_recovers la_givens K_test2 R_test2 T_test2 (-3)).
  - apply canonical_K_test2.
  - apply rotation_R_test2.
  - lra.
  - apply contract_scaled_test2.
Defined.

Lemma mscale34_1 (P : mat34 R) : mscale34 1 P = P.
Proof. by_entries. Qed.

(** X3. Idempotence: decomposing the matrix [K [R | T]] rebuilt from a
    result gives that result again. *)
Theorem KRT_from_P_idempotent (la : LinAlg R) (P : mat34 R)
    (K Q : mat R) (T : vec3 R) :
  det (leading3 P) <> 0 -> library_contract la P ->
  KRT_from_P la P = Ok (K, Q, T) ->
  library_contract la (mmul34 K (hstack Q T)) ->
  KRT_from_P la (mmul34 K (hstack Q T)) = Ok (K, Q, T).
Proof.
  intros Hd Hla Hrun Hla'.
  destruct (KRT_from_P_run la P Hd Hla)
    as (K' & Q' & T' & C & s & Hrun' & HK & HQ & _).
  rewrite Hrun in Hrun'. injection Hrun' as <- <- <-.
  rewrite <- (mscale34_1 (mmul34 K (hstack Q T))) in Hla' |- *.
  apply recover_canonical; auto; lra.
Qed.

Lemma KRT_from_P_idempotent_witness :
  KRT_from_P la_givens (mmul34 K_test2 (hstack R_test2 T_test2))
    = Ok (K_test2, R_test2, T_test2).
Proof.
  apply (KRT_from_P_idempotent la_givens P_test2 K_test2 R_test2 T_test2).
  - apply det_test2.
  - apply la_givens_contract, det_test2.
  - apply KRT_from_P_test2_value, la_givens_contract, det_test2.
  - apply la_givens_contract, det_constructed;
      [apply upper_K_test2 | apply positive_diagonal_K_test2
       | apply rotation_R_test2].
Defined.

(** ** Shape of the result *)

(** X4. On a nonsingular leading block the returned [K] is upper
    triangular and the returned [R] is an orthogonal matrix, with
    [R R^T = R^T R = I] and determinant exactly 1. *)
Theorem KRT_from_P_triangular_orthogonal (la : LinAlg R) (P : mat34 R) :
  det (leading3 P) <> 0 -> library_contract la P ->
  exists K Q T,
    KRT_from_P la P = Ok (K, Q, T) /\
    upper K /\
    mmul Q (transpose Q) = identity /\ mmul (transpose Q) Q = identity /\
    det Q = 1.
Proof.
  intros Hd Hla.
  destruct (KRT_from_P_run la P Hd Hla)
    as (K & Q & T & C & s & Hrun & (HU & _) & [[HQ HQ'] HD] & _).
  exists K, Q, T. auto.
Qed.

Lemma KRT_from_P_triangular_orthogonal_witness :
  exists K Q T,
    KRT_from_P la_givens P_test2 = Ok (K, Q, T) /\
    upper K /\
    mmul Q (transpose Q) = identity /\ mmul (transpose Q) Q = identity /\
    det Q = 1.
Proof.
  apply (KRT_from_P_triangular_orthogonal la_givens P_test2).
  - apply det_test2.
  - apply la_givens_contract, det_test2.
Defined.

Lemma canonical_last_row (K Q : mat R) :
  canonical_K K -> e2 (mmul K Q) = e2 Q.
Proof.
  unfold canonical_K, upper. split_arrays; entries.
  intros ((_ & -> & ->) & _ & _ & ->). array_eq; ring.
Qed.

Lemma orthogonal_last_row (Q : mat R) : orthogonal Q -> dot (e2 Q) (e2 Q) = 1.
Proof.
  intros [HQ _]. apply (f_equal (fun m => e2 (e2 m))) in HQ.
  revert HQ. split_arrays; entries. auto.
Qed.

Lemma canonical_det_pos (K : mat R) : canonical_K K -> 0 < det K.
Proof.
  intros (HU & H0 & H1 & H2). rewrite (upper_det _ HU), H2.
  assert (0 < e0 (e0 K) * e1 (e1 K)) by now apply Rmult_lt_0_compat.
  lra.
Qed.

(** X5 (in exact arithmetic). On a nonsingular leading block [H], with
    the library meeting its contract exactly, the scale of the
    reconstruction -- the [s] with [K [R | T] = s P] -- has the sign of
    the determinant of [H], and magnitude one over the Euclidean norm of
    the third row of [H]. *)
Theorem KRT_from_P_scale (la : LinAlg R) (P : mat34 R) :
  det (leading3 P) <> 0 -> library_contract la P ->
  exists K Q T s,
    KRT_from_P la P = Ok (K, Q, T) /\
    mmul34 K (hstack Q T) = mscale34 s P /\
    0 < s * det (leading3 P) /\
    s * s * dot (e2 (leading3 P)) (e2 (leading3 P)) = 1.
Proof.
  intros Hd Hla.
  destruct (KRT_from_P_run la P Hd Hla)
    as (K & Q & T & C & s & Hrun & HK & [HO HD] & Hs & HKQ & _ & HC & HT).
  exists K, Q, T, s. split; [assumption |]. split.
  { rewrite mmul34_hstack, HT, (translation_column K Q _ C _ s HKQ HC), HKQ.
    rewrite <- mscale34_hstack. now rewrite hstack_leading_last. }
  split.
  - pose proof (f_equal det HKQ) as E.
    rewrite det_mmul, HD, det_mscale, Rmult_1_r in E.
    pose proof (canonical_det_pos K HK) as HdK. nra.
  - pose proof (f_equal (fun m => e2 m) HKQ) as E. cbv beta in E.
    rewrite (canonical_last_row K Q HK) in E.
    pose proof (orthogonal_last_row Q HO) as HN. rewrite E in HN.
    rewrite <- HN. unfold mscale. generalize (leading3 P). by_entries.
Qed.

Lemma KRT_from_P_scale_witness :
  exists K Q T s,
    KRT_from_P la_givens P_test2 = Ok (K, Q, T) /\
    mmul34 K (hstack Q T) = mscale34 s P_test2 /\
    0 < s * det (leading3 P_test2) /\
    s * s * dot (e2 (leading3 P_test2)) (e2 (leading3 P_test2)) = 1.
Proof.
  apply (KRT_from_P_scale la_givens P_test2).
  - apply det_test2.
  - apply la_givens_contract, det_test2.
Defined.

(** X6 (in exact arithmetic). The camera centre is recovered from the
    result: on a nonsingular leading block [H], with the library meeting
    its contract exactly, the point [-R^T T] is the point that [P]
    projects to zero, [H (-R^T T) + p4 = 0]. *)
Theorem KRT_from_P_centre (la : LinAlg R) (P : mat34 R) :
  det (leading3 P) <> 0 -> library_contract la P ->
  exists K Q T,
    KRT_from_P la P = Ok (K, Q, T) /\
    mulv (leading3 P) (mulv (mopp (transpose Q)) T) = vopp (lastcol P).
Proof.
  intros Hd Hla.
  destruct (KRT_from_P_run la P Hd Hla)
    as (K & Q & T & C & s & Hrun & _ & [[_ HO] _] & _ & _ & _ & HC & HT).
  exists K, Q, T. split; [assumption |].
  assert (E : mulv (mopp (transpose Q)) T = C).
  { rewrite HT, <- mulv_mmul.
    replace (mmul (mopp (transpose Q)) (mopp Q)) with (mmul (transpose Q) Q)
      by by_entries.
    rewrite HO. by_entries. }
  now rewrite E.
Qed.

Lemma KRT_from_P_centre_witness :
  exists K Q T,
    KRT_from_P la_givens P_test2 = Ok (K, Q, T) /\
    mulv (leading3 P_test2) (mulv (mopp (transpose Q)) T)
      = vopp (lastcol P_test2).
Proof.
  apply (KRT_from_P_centre la_givens P_test2).
  - apply det_test2.
  - apply la_givens_contract, det_test2.
Defined.

(** ** [rf_rq] and the determinant *)

(** X7 (in exact arithmetic). When [numpy.linalg.qr] meets its contract
    exactly, the diagonal of the triangular factor of [rf_rq] multiplies
    to the determinant of the argument; in particular a real matrix is
    singular exactly when its exact factor has a zero on its diagonal. *)
Theorem rf_rq_determinant (la : LinAlg R) (A r q : mat R) :
  qr_contract la (flip (transpose A)) ->
  rf_rq la A = Ok (r, q) ->
  det A = e0 (e0 r) * e1 (e1 r) * e2 (e2 r) /\
  (det A = 0 <-> e0 (e0 r) = 0 \/ e1 (e1 r) = 0 \/ e2 (e2 r) = 0).
Proof.
  intros Hqr Hrf.
  destruct (rf_rq_spec la A Hqr) as (r' & q' & Hrf' & Hr & [_ Hq] & Hp).
  rewrite Hrf in Hrf'. injection Hrf' as <- <-.
  assert (E : det A = e0 (e0 r) * e1 (e1 r) * e2 (e2 r)).
  { now rewrite <- Hp, det_mmul, Hq, Rmult_1_r, (upper_det _ Hr). }
  split; [assumption |]. rewrite E. split.
  - intros Hz. apply Rmult_integral in Hz. destruct Hz as [Hz | Hz]; [| auto].
    apply Rmult_integral in Hz. tauto.
  - intros [Hz | [Hz | Hz]]; rewrite Hz; ring.
Qed.

Lemma rf_rq_determinant_witness :
  det (leading3 P_degenerate)
    = e0 (e0 K_degenerate) * e1 (e1 K_degenerate) * e2 (e2 K_degenerate) /\
  (det (leading3 P_degenerate) = 0 <->
   e0 (e0 K_degenerate) = 0 \/ e1 (e1 K_degenerate) = 0
   \/ e2 (e2 K_degenerate) = 0).
Proof.
  apply (rf_rq_determinant la_triangular (leading3 P_degenerate)
           K_degenerate identity).
  - exists identity, (flip (transpose (leading3 P_degenerate))).
    split; [reflexivity |]. split; [apply orthogonal_identity |].
    split; [| apply mmul_1_l]. unfold upper; cbn; auto.
  - unfold rf_rq. cbn [la_triangular qr bind].
    change (@s_ltb R _ ?x ?y) with (Rltb x y). rewrite Rltb_false; [reflexivity |].
    entries; lra.
Defined.

(** ** A singular leading block with a nonzero corner *)

Lemma det_zero_row0 (x y : R) (q : mat R) : det (mmul (diag (V3 0 x y)) q) = 0.
Proof. by_entries. Qed.

Lemma det_zero_row1 (x y : R) (q : mat R) : det (mmul (diag (V3 x 0 y)) q) = 0.
Proof. by_entries. Qed.

Lemma proper_rotation_fix_singular (Q : mat R) :
  det Q = 0 -> proper_rotation_fix Q = Q.
Proof.
  intros Hd. unfold proper_rotation_fix.
  change (@s_ltb R _ ?x ?y) with (Rltb x y). change (@s_zero R _) with 0.
  rewrite Rltb_false; [reflexivity | lra].
Qed.

(** The sign step on a triangular factor that was normalised by a nonzero
    corner and has a zero among its first two diagonal entries. *)
Lemma sign_canonicalize_singular (r q : mat R) :
  upper r -> e2 (e2 r) <> 0 -> e0 (e0 r) = 0 \/ e1 (e1 r) = 0 ->
  e2 (e2 (fst (sign_canonicalize (scale_normalize r) q))) = 1 /\
  (e0 (e0 (fst (sign_canonicalize (scale_normalize r) q))) = 0 \/
   e1 (e1 (fst (sign_canonicalize (scale_normalize r) q))) = 0) /\
  det (snd (sign_canonicalize (scale_normalize r) q)) = 0.
Proof.
  destruct r as [[r00 r01 r02] [r10 r11 r12] [r20 r21 r22]].
  unfold upper; cbn [e0 e1 e2]. intros (-> & -> & ->) Hc Hz.
  unfold sign_canonicalize, sign_matrix, scale_normalize. cbn [fst snd].
  cbv [mdiv mmap vmap diagonal e0 e1 e2].
  change (@s_div R _ ?x ?y) with (x / y).
  replace (r22 / r22) with 1 by (field; assumption).
  rewrite (sign_pos 1) by lra.
  destruct Hz as [-> | ->]; replace (0 / r22) with 0 by (field; assumption);
    rewrite sign_zero.
  - generalize (sign (r11 / r22)); intros x.
    split; [entries; ring |]. split; [left; entries; ring |].
    apply det_zero_row0.
  - generalize (sign (r00 / r22)); intros x.
    split; [entries; ring |]. split; [right; entries; ring |].
    apply det_zero_row1.
Qed.

(** X8 (in exact arithmetic). No singularity is noticed when the corner
    of the triangular factor is nonzero: on a singular leading block whose
    exact factor has [r[2,2] <> 0], the run returns a triple in which
    [K[2,2] = 1], one of [K[0,0]], [K[1,1]] is zero, and [det R = 0] --
    neither the positive diagonal nor the positive determinant of the
    header comment holds, and nothing is raised. *)
Theorem KRT_from_P_singular_silent (la : LinAlg R) (P : mat34 R)
    (r q : mat R) (C : vec3 R) :
  det (leading3 P) = 0 ->
  qr_contract la (flip (transpose (leading3 P))) ->
  rf_rq la (leading3 P) = Ok (r, q) ->
  e2 (e2 r) <> 0 ->
  lstsq la (mopp (leading3 P)) (lastcol P) = Ok C ->
  exists K Q T,
    KRT_from_P la P = Ok (K, Q, T) /\
    e2 (e2 K) = 1 /\ (e0 (e0 K) = 0 \/ e1 (e1 K) = 0) /\ det Q = 0.
Proof.
  intros Hd Hqr Hrf Hc Hls.
  destruct (rf_rq_spec la _ Hqr) as (r' & q' & Hrf' & Hr & [_ Hq] & Hp).
  rewrite Hrf in Hrf'. injection Hrf' as <- <-.
  assert (Hz : e0 (e0 r) = 0 \/ e1 (e1 r) = 0).
  { rewrite <- Hp, det_mmul, Hq, Rmult_1_r, (upper_det _ Hr) in Hd.
    apply Rmult_integral in Hd. destruct Hd as [Hd | Hd]; [| contradiction].
    apply Rmult_integral in Hd. exact Hd. }
  destruct (sign_canonicalize_singular r q Hr Hc Hz) as (H22 & Hdiag & Hdet).
  unfold KRT_from_P. rewrite Hrf. cbn [bind].
  destruct (sign_canonicalize (scale_normalize r) q) as [K Q1].
  cbn [fst snd] in *. rewrite Hls. cbn [bind].
  rewrite (proper_rotation_fix_singular Q1 Hdet).
  do 3 eexists. split; [reflexivity |]. auto.
Qed.

Lemma KRT_from_P_singular_silent_witness :
  exists K Q T,
    KRT_from_P la_triangular P_degenerate = Ok (K, Q, T) /\
    e2 (e2 K) = 1 /\ (e0 (e0 K) = 0 \/ e1 (e1 K) = 0) /\ det Q = 0.
Proof.
  apply (KRT_from_P_singular_silent la_triangular P_degenerate
           K_degenerate identity
           (cramer (mopp (leading3 P_degenerate)) (lastcol P_degenerate))).
  - unfold P_degenerate, K_degenerate; entries; ring.
  - exists identity, (flip (transpose (leading3 P_degenerate))).
    split; [reflexivity |]. split; [apply orthogonal_identity |].
    split; [| apply mmul_1_l]. unfold upper; cbn; auto.
  - unfold rf_rq. cbn [la_triangular qr bind].
    change (@s_ltb R _ ?x ?y) with (Rltb x y). rewrite Rltb_false; [reflexivity |].
    entries; lra.
  - unfold K_degenerate; cbn [e2]. lra.
  - reflexivity.
Defined.

End Decomposition.

(** * Part V: a zero or non-finite corner in binary64 *)

Module Binary64Edge.

Import Binary64.
Local Open Scope float_scope.

(** ** NaN in binary64 arithmetic *)

Lemma SFcompare_refl_not_nan (x : spec_float) :
  x <> S754_nan -> SFcompare x x = Some Eq.
Proof.
  destruct x as [s | s | | s m e]; intros Hx.
  - reflexivity.
  - now destruct s.
  - contradiction.
  - apply SFcompare_finite_refl.
Qed.

(** The kernel's floats have one NaN. *)
Lemma is_nan_eq (x : float) : is_nan x = true -> x = nan.
Proof.
  unfold is_nan. rewrite eqb_spec. intros Hx.
  apply Prim2SF_inj. change (Prim2SF nan) with S754_nan.
  destruct (Prim2SF x) as [s | s | | s m e] eqn:E; try reflexivity;
    unfold SFeqb in Hx; rewrite SFcompare_refl_not_nan in Hx;
    discriminate.
Qed.

Lemma add_nan_r (x : float) : x + nan = nan.
Proof.
  apply Prim2SF_inj. rewrite add_spec. change (Prim2SF nan) with S754_nan.
  now destruct (Prim2SF x).
Qed.

Lemma add_nan_l (x : float) : nan + x = nan.
Proof.
  apply Prim2SF_inj. rewrite add_spec. change (Prim2SF nan) with S754_nan.
  reflexivity.
Qed.

Lemma mul_nan_r (x : float) : x * nan = nan.
Proof.
  apply Prim2SF_inj. rewrite mul_spec. change (Prim2SF nan) with S754_nan.
  now destruct (Prim2SF x).
Qed.

Lemma mul_nan_l (x : float) : nan * x = nan.
Proof.
  apply Prim2SF_inj. rewrite mul_spec. change (Prim2SF nan) with S754_nan.
  reflexivity.
Qed.

Lemma div_nan_l (x : float) : nan / x = nan.
Proof.
  apply Prim2SF_inj. rewrite div_spec. change (Prim2SF nan) with S754_nan.
  reflexivity.
Qed.

Lemma sign_nan : sign nan = nan.
Proof. reflexivity. Qed.

(** ** How the NaN of the normalisation spreads *)

Lemma dot_nan (a b c x y : float) :
  dot (V3 a b c) (V3 x y nan) = nan.
Proof. unfold dot; cbn. now rewrite mul_nan_r, add_nan_r. Qed.

Lemma dot_nan_row (x y z : float) :
  dot (V3 nan nan nan) (V3 x y z) = nan.
Proof. unfold dot; cbn. now rewrite !mul_nan_l, !add_nan_l. Qed.

(** After the sign step the last column of [K] and the last row of [R]
    are NaN. *)
Lemma sign_canonicalize_nan (r q : mat float) :
  degenerate (e2 (e2 r)) = true ->
  col2 (fst (sign_canonicalize (scale_normalize r) q)) = all_nan /\
  e2 (snd (sign_canonicalize (scale_normalize r) q)) = all_nan.
Proof.
  intros Hdeg. apply div_self_degenerate, is_nan_eq in Hdeg.
  destruct r as [[r00 r01 r02] [r10 r11 r12] [r20 r21 r22]].
  destruct q as [[q00 q01 q02] [q10 q11 q12] [q20 q21 q22]].
  cbn [e2] in Hdeg.
  unfold sign_canonicalize, sign_matrix, scale_normalize. cbn [fst snd].
  cbv [mdiv mmap vmap diagonal e0 e1 e2].
  change (@s_div float _ ?x ?y) with (x / y).
  rewrite Hdeg, sign_nan.
  unfold all_nan. cbv [col0 col1 col2 mmul diag vmap e0 e1 e2]. split.
  - change (@s_zero float _) with 0. now rewrite !dot_nan.
  - unfold dot. cbv [e0 e1 e2].
    change (@s_mul float _ ?x ?y) with (x * y).
    change (@s_add float _ ?x ?y) with (x + y).
    now rewrite !mul_nan_l, !add_nan_r.
Qed.

Lemma proper_rotation_fix_nan (Q : mat float) :
  e2 Q = all_nan -> e2 (proper_rotation_fix Q) = all_nan.
Proof.
  intros HQ. unfold proper_rotation_fix.
  destruct (s_ltb _ _); [| assumption].
  destruct Q as [u v w]. cbn [e2] in HQ. subst w. reflexivity.
Qed.

(** A run through a corner that is zero or not finite. *)
Lemma run_with_nan (la : LinAlg float) (P : mat34 float)
    (r q : mat float) (C : vec3 float) :
  rf_rq la (leading3 P) = Ok (r, q) ->
  degenerate (e2 (e2 r)) = true ->
  lstsq la (mopp (leading3 P)) (lastcol P) = Ok C ->
  exists K Q T,
    KRT_from_P la P = Ok (K, Q, T) /\
    col2 K = all_nan /\ e2 Q = all_nan /\ e2 T = nan.
Proof.
  intros Hrf Hdeg Hls.
  destruct (sign_canonicalize_nan r q Hdeg) as [HK HQ].
  unfold KRT_from_P. rewrite Hrf. cbn [bind].
  destruct (sign_canonicalize (scale_normalize r) q) as [K Q1].
  cbn [fst snd] in *. rewrite Hls. cbn [bind].
  apply proper_rotation_fix_nan in HQ.
  do 3 eexists. split; [reflexivity |]. split; [assumption |].
  split; [assumption |].
  destruct (proper_rotation_fix Q1) as [u v w]. cbn [e2] in HQ. subst w.
  destruct C as [c0 c1 c2]. cbv [mulv mopp mmap vmap e0 e1 e2 all_nan].
  change (@s_opp float _ nan) with nan. apply dot_nan_row.
Qed.


(** X9. In binary64, whenever the corner [r[2,2]] of the triangular
    factor is zero, infinite or NaN, the run still returns, and the NaN of
    the normalisation reaches all three results: the last column of [K],
    the last row of [R] and the last entry of [T] are NaN. *)
Theorem KRT_from_P_nan (la : LinAlg float) (P : mat34 float)
    (r q : mat float) (C : vec3 float) :
  rf_rq la (leading3 P) = Ok (r, q) ->
  degenerate (e2 (e2 r)) = true ->
  lstsq la (mopp (leading3 P)) (lastcol P) = Ok C ->
  exists K Q T,
    KRT_from_P la P = Ok (K, Q, T) /\
    col2 K = all_nan /\ e2 Q = all_nan /\ e2 T = nan.
Proof. exact (run_with_nan la P r q C). Qed.

Lemma KRT_from_P_nan_witness :
  exists K Q T,
    KRT_from_P la_singular P_singular = Ok (K, Q, T) /\
    col2 K = all_nan /\ e2 Q = all_nan /\ e2 T = nan.
Proof.
  apply (KRT_from_P_nan la_singular P_singular
           (leading3 P_singular) identity (V3 (-1) (-2) 0)).
  - vm_compute; reflexivity.
  - reflexivity.
  - reflexivity.
Defined.

End Binary64Edge.

(** * Part VI: the camera handed to Blender

    [get_blender_camera_from_3x4_P] decomposes [P] with [KRT_from_P],
    derives the sensor width, the pixel resolution, the focal length, the
    transposed rotation and the camera location from the result, and writes
    them into the Blender scene.  The embedding is the function up to the
    values it writes: what it computes with numpy and Python arithmetic
    (lines 63-78, 93 and 95).  The calls into [bpy] and the two products of
    [mathutils] matrices (lines 94 and 111) belong to the host application
    and are not modelled. *)

(** Python exceptions of this function: the library error of
    [KRT_from_P], and the two errors of [int] on a float. *)
Inductive py_exn : Type :=
| Library (e : exn)
| ValueError
| OverflowError.

Inductive outcome (A : Type) : Type :=
| Returned (a : A)
| Raised (e : py_exn).

Arguments Returned {A} a.
Arguments Raised {A} e.

(** Python's [int] on a float: truncation toward zero; [ValueError] on a
    NaN and [OverflowError] on an infinity. *)
Class Truncation (F : Type) := { s_int : F -> outcome Z }.

(** What the function writes: [scene.render.resolution_x],
    [resolution_y] and [resolution_percentage], [cam.lens],
    [cam.sensor_width], and the [location] and [R_cv2world] from which the
    camera's world matrix is built. *)
Record camera (F : Type) : Type := Camera {
  resolution_x : Z;
  resolution_y : Z;
  resolution_percentage : F;
  lens : F;
  sensor_width : F;
  location : vec3 F;
  R_cv2world : mat F
}.

Arguments Camera {F}.
Arguments resolution_x {F}.
Arguments resolution_y {F}.
Arguments resolution_percentage {F}.
Arguments lens {F}.
Arguments sensor_width {F}.
Arguments location {F}.
Arguments R_cv2world {F}.

Section Camera.

Context {F : Type} `{Scalar F} `{Truncation F}.
Local Open Scope scalar_scope.

(** An integer literal of the source. *)
Fixpoint s_nat (n : nat) : F :=
  match n with
  | O => s_zero
  | S n => s_nat n + s_one
  end.

Variable la : LinAlg F.

(** [get_blender_camera_from_3x4_P], lines 61-125. *)
Definition get_blender_camera_from_3x4_P (P : mat34 F) (scale : F)
  : outcome (camera F) :=
  match KRT_from_P la P with
  | Raise e => Raised (Library e)
  | Ok (K, R_world2cv, T_world2cv) =>
    let sensor_width_in_mm :=
      e1 (e1 K) * e2 (e0 K) / (e0 (e0 K) * e2 (e1 K)) in
    let sensor_height_in_mm := s_nat 1 in
    let resolution_x_in_px := e2 (e0 K) * s_nat 2 in
    let resolution_y_in_px := e2 (e1 K) * s_nat 2 in
    let s_u := resolution_x_in_px / sensor_width_in_mm in
    let s_v := resolution_y_in_px / sensor_height_in_mm in
    let f_in_mm := e0 (e0 K) / s_u in
    match s_int (resolution_x_in_px / scale) with
    | Raised e => Raised e
    | Returned rx =>
      match s_int (resolution_y_in_px / scale) with
      | Raised e => Raised e
      | Returned ry =>
        let R_cv2world := transpose R_world2cv in
        let location := mulv (mopp R_cv2world) T_world2cv in
        Returned (Camera rx ry (scale * s_nat 100) f_in_mm
                         sensor_width_in_mm location R_cv2world)
      end
    end
  end.

End Camera.

(** [int] on a real number: in exact arithmetic the quotient it is
    applied to is a real, on which truncation cannot fail.  In binary64
    ([float_int] below) the argument is the rounded quotient, and an
    infinity or NaN raises. *)
Definition Rtrunc (x : R) : Z :=
  if Rle_dec 0 x then Int_part x else (- Int_part (- x))%Z.

#[export] Instance Truncation_R : Truncation R :=
  {| s_int := fun x => Returned (Rtrunc x) |}.

(** [int] on a binary64 float, from its sign, mantissa and exponent. *)
Definition float_int (x : float) : outcome Z :=
  match Prim2SF x with
  | S754_zero _ => Returned 0%Z
  | S754_infinity _ => Raised OverflowError
  | S754_nan => Raised ValueError
  | S754_finite s m e =>
    let magnitude :=
      match e with
      | Zneg p => Z.shiftr (Zpos m) (Zpos p)
      | _ => Z.shiftl (Zpos m) e
      end in
    Returned (if s then (- magnitude)%Z else magnitude)
  end.

#[export] Instance Truncation_float : Truncation float :=
  {| s_int := float_int |}.

(** ** The camera in exact arithmetic *)

Module CameraExact.

Import Exact.
Local Open Scope R_scope.

(** The function on a run of [KRT_from_P] that returned. *)
Lemma camera_of_run (la : LinAlg R) (P : mat34 R) (scale : R)
    (K Q : mat R) (T : vec3 R) :
  KRT_from_P la P = Ok (K, Q, T) ->
  get_blender_camera_from_3x4_P la P scale =
  Returned
    (Camera (Rtrunc (e2 (e0 K) * 2 / scale)) (Rtrunc (e2 (e1 K) * 2 / scale))
            (scale * 100)
            (e0 (e0 K) /
               (e2 (e0 K) * 2 / (e1 (e1 K) * e2 (e0 K) / (e0 (e0 K) * e2 (e1 K)))))
            (e1 (e1 K) * e2 (e0 K) / (e0 (e0 K) * e2 (e1 K)))
            (mulv (mopp (transpose Q)) T) (transpose Q)).
Proof.
  intros Hrun. unfold get_blender_camera_from_3x4_P. rewrite Hrun.
  cbn [s_int Truncation_R].
  assert (E2 : s_nat 2 = 2) by (cbn; ring).
  assert (E100 : s_nat 100 = 100) by (cbn; ring).
  rewrite E2, E100. reflexivity.
Qed.

(** X10 (in exact arithmetic). The camera is placed at the centre of
    projection: on a nonsingular leading block [H] and a nonzero [scale],
    with the library meeting its contract exactly, the function returns,
    and its [location] is the point that [P] projects to zero,
    [H location + p4 = 0]; its [R_cv2world] is the transpose of the
    returned rotation, an orthogonal matrix of determinant 1. *)
Theorem camera_location (la : LinAlg R) (P : mat34 R) (scale : R) :
  det (leading3 P) <> 0 -> scale <> 0 -> library_contract la P ->
  exists cam,
    get_blender_camera_from_3x4_P la P scale = Returned cam /\
    mulv (leading3 P) (location cam) = vopp (lastcol P) /\
    orthogonal (R_cv2world cam) /\ det (R_cv2world cam) = 1.
Proof.
  intros Hd Hsc Hla.
  destruct (KRT_from_P_run la P Hd Hla)
    as (K & Q & T & C & s & Hrun & _ & [HO HD] & _ & _ & _ & HC & HT).
  rewrite (camera_of_run la P scale K Q T Hrun).
  eexists. split; [reflexivity |]. cbn [location R_cv2world].
  split; [| split; [now apply orthogonal_transpose | now rewrite det_transpose]].
  assert (E : mulv (mopp (transpose Q)) T = C).
  { rewrite HT, <- mulv_mmul.
    replace (mmul (mopp (transpose Q)) (mopp Q)) with (mmul (transpose Q) Q)
      by by_entries.
    rewrite (proj2 HO). by_entries. }
  now rewrite E.
Qed.

Lemma camera_location_witness :
  exists cam,
    get_blender_camera_from_3x4_P la_givens P_test2 1 = Returned cam /\
    mulv (leading3 P_test2) (location cam) = vopp (lastcol P_test2) /\
    orthogonal (R_cv2world cam) /\ det (R_cv2world cam) = 1.
Proof.
  apply (camera_location la_givens P_test2 1).
  - apply det_test2.
  - lra.
  - apply la_givens_contract, det_test2.
Defined.

(** X11 (in exact arithmetic). The camera has the field of view of [K]:
    on a nonsingular leading block, with the library meeting its contract
    exactly, when the principal point [K[0,2]], [K[1,2]] has no zero
    coordinate, the focal length and sensor width written to Blender
    satisfy
    [lens / sensor_width = K[0,0] / (2 K[0,2])] horizontally and
    [lens / 1 = K[1,1] / (2 K[1,2])] vertically (the sensor height is 1),
    with [sensor_width = K[1,1] K[0,2] / (K[0,0] K[1,2])]. *)
Theorem camera_field_of_view (la : LinAlg R) (P : mat34 R) (scale : R)
    (K Q : mat R) (T : vec3 R) :
  det (leading3 P) <> 0 -> scale <> 0 -> library_contract la P ->
  KRT_from_P la P = Ok (K, Q, T) ->
  e2 (e0 K) <> 0 -> e2 (e1 K) <> 0 ->
  exists cam,
    get_blender_camera_from_3x4_P la P scale = Returned cam /\
    lens cam * (2 * e2 (e0 K)) = e0 (e0 K) * sensor_width cam /\
    lens cam * (2 * e2 (e1 K)) = e1 (e1 K) /\
    sensor_width cam * (e0 (e0 K) * e2 (e1 K)) = e1 (e1 K) * e2 (e0 K).
Proof.
  intros Hd Hsc Hla Hrun Hx Hy.
  destruct (KRT_from_P_run la P Hd Hla)
    as (K' & Q' & T' & C & s & Hrun' & (_ & K0 & K1 & _) & _).
  rewrite Hrun in Hrun'. injection Hrun' as <- <- <-.
  rewrite (camera_of_run la P scale K Q T Hrun).
  eexists. split; [reflexivity |]. cbn [lens sensor_width].
  assert (e0 (e0 K) <> 0) by lra. assert (e1 (e1 K) <> 0) by lra.
  repeat split; field; auto.
Qed.

Lemma camera_field_of_view_witness :
  exists cam,
    get_blender_camera_from_3x4_P la_givens P_test2 1 = Returned cam /\
    lens cam * (2 * e2 (e0 K_test2)) = e0 (e0 K_test2) * sensor_width cam /\
    lens cam * (2 * e2 (e1 K_test2)) = e1 (e1 K_test2) /\
    sensor_width cam * (e0 (e0 K_test2) * e2 (e1 K_test2))
      = e1 (e1 K_test2) * e2 (e0 K_test2).
Proof.
  apply (camera_field_of_view la_givens P_test2 1 K_test2 R_test2 T_test2).
  - apply det_test2.
  - lra.
  - apply la_givens_contract, det_test2.
  - apply KRT_from_P_test2_value, la_givens_contract, det_test2.
  - cbn; lra.
  - cbn; lra.
Defined.

(** X13. The camera depends on the projection matrix only up to its
    scale: for a nonsingular leading block and a nonzero [lam], the
    function gives the same outcome on [lam P] as on [P]. *)
Theorem camera_scale_invariant (la : LinAlg R) (P : mat34 R) (lam scale : R) :
  det (leading3 P) <> 0 -> lam <> 0 ->
  library_contract la P -> library_contract la (mscale34 lam P) ->
  get_blender_camera_from_3x4_P la (mscale34 lam P) scale =
  get_blender_camera_from_3x4_P la P scale.
Proof.
  intros Hd Hlam Hla Hla'.
  assert (Hd' : det (leading3 (mscale34 lam P)) <> 0).
  { rewrite leading3_mscale34, det_mscale.
    repeat apply Rmult_integral_contrapositive_currified; assumption. }
  destruct (KRT_from_P_run la P Hd Hla)
    as (K & Q & T & C & s & Hrun & HK & HQ & Hs & HKQ & _ & HC & HT).
  destruct (KRT_from_P_run la _ Hd' Hla')
    as (K' & Q' & T' & C' & s' & Hrun' & HK' & HQ' & Hs' & HKQ' & _ & HC' & HT').
  destruct (Decomposition.run_determined (leading3 P) (leading3 (mscale34 lam P))
              K K' Q Q' (lastcol P) (lastcol (mscale34 lam P)) C C' T T' s s' lam)
    as (EK & EQ & ET); try assumption.
  - apply leading3_mscale34.
  - apply lastcol_mscale34.
  - rewrite EK, EQ, ET in Hrun'.
    unfold get_blender_camera_from_3x4_P. now rewrite Hrun, Hrun'.
Qed.

Lemma camera_scale_invariant_witness :
  get_blender_camera_from_3x4_P la_givens (mscale34 (-2) P_test2) 1 =
  get_blender_camera_from_3x4_P la_givens P_test2 1.
Proof.
  apply (camera_scale_invariant la_givens P_test2 (-2) 1).
  - apply det_test2.
  - lra.
  - apply la_givens_contract, det_test2.
  - apply la_givens_contract.
    rewrite leading3_mscale34, det_mscale. unfold P_test2; entries. lra.
Defined.

End CameraExact.

(** ** The camera in binary64 *)

Module CameraBinary64.

Import Binary64 Binary64Edge.
Local Open Scope float_scope.

Lemma float_int_nan : float_int nan = Raised ValueError.
Proof. reflexivity. Qed.

(** X14. In binary64, when the corner [r[2,2]] of the triangular factor
    is zero, infinite or NaN, [get_blender_camera_from_3x4_P] raises
    [ValueError] at its first [int] (line 76), for every [scale]: the
    principal point [K[0,2]] is NaN, and no camera is created. *)
Theorem camera_nan_raises (la : LinAlg float) (P : mat34 float) (scale : float)
    (r q : mat float) (C : vec3 float) :
  rf_rq la (leading3 P) = Ok (r, q) ->
  degenerate (e2 (e2 r)) = true ->
  lstsq la (mopp (leading3 P)) (lastcol P) = Ok C ->
  get_blender_camera_from_3x4_P la P scale = Raised ValueError.
Proof.
  intros Hrf Hdeg Hls.
  destruct (run_with_nan la P r q C Hrf Hdeg Hls)
    as (K & Q & T & Hrun & HK & _).
  unfold get_blender_camera_from_3x4_P. rewrite Hrun.
  destruct K as [[k00 k01 k02] [k10 k11 k12] [k20 k21 k22]].
  injection HK as -> -> ->. cbv [e0 e1 e2].
  change (@s_mul float _ ?x ?y) with (x * y).
  change (@s_div float _ ?x ?y) with (x / y).
  rewrite (mul_nan_l (s_nat 2)), (div_nan_l scale).
  reflexivity.
Qed.

Lemma camera_nan_raises_witness :
  get_blender_camera_from_3x4_P la_singular P_singular 1 = Raised ValueError.
Proof.
  apply (camera_nan_raises la_singular P_singular 1
           (leading3 P_singular) identity (V3 (-1) (-2) 0)).
  - vm_compute; reflexivity.
  - reflexivity.
  - reflexivity.
Defined.

Lemma is_zero_spec (x : float) :
  is_zero x = true -> exists s, Prim2SF x = S754_zero s.
Proof.
  unfold is_zero. rewrite eqb_spec. change (Prim2SF 0) with (S754_zero false).
  destruct (Prim2SF x) as [s | s | | s m e]; try discriminate.
  - eauto.
  - now destruct s.
  - now destruct s.
Qed.

(** IEEE 754: a quotient by zero is an infinity or NaN, on which [int]
    raises. *)
Lemma float_int_div_zero (x z : float) :
  is_zero z = true ->
  float_int (x / z) = Raised ValueError \/
  float_int (x / z) = Raised OverflowError.
Proof.
  intros Hz. destruct (is_zero_spec z Hz) as [s Hs].
  unfold float_int. rewrite div_spec, Hs.
  destruct (Prim2SF x) as [sx | sx | | sx m e]; cbn; auto.
Qed.

(** X15. In binary64, a zero [scale] makes the function raise at its
    first [int] (line 76) whenever [KRT_from_P] returns: the quotient
    [resolution_x_in_px / scale] is an infinity or NaN, so the error is
    [OverflowError] or [ValueError], never a division error. *)
Theorem camera_zero_scale_raises (la : LinAlg float) (P : mat34 float)
    (scale : float) (K Q : mat float) (T : vec3 float) :
  KRT_from_P la P = Ok (K, Q, T) ->
  is_zero scale = true ->
  get_blender_camera_from_3x4_P la P scale = Raised ValueError \/
  get_blender_camera_from_3x4_P la P scale = Raised OverflowError.
Proof.
  intros Hrun Hz.
  unfold get_blender_camera_from_3x4_P. rewrite Hrun.
  change (@s_int float _ ?x) with (float_int x).
  change (@s_div float _ ?x ?y) with (x / y).
  destruct (float_int_div_zero (@s_mul float _ (e2 (e0 K)) (s_nat 2)) scale Hz)
    as [E | E]; rewrite E; auto.
Qed.

Lemma camera_zero_scale_raises_witness :
  get_blender_camera_from_3x4_P la_test2 P_test2 0 = Raised ValueError \/
  get_blender_camera_from_3x4_P la_test2 P_test2 0 = Raised OverflowError.
Proof.
  apply (camera_zero_scale_raises la_test2 P_test2 0
           (V3 (V3 2 0 10) (V3 0 3 14) (V3 0 0 1))
           (V3 (V3 1 (-0) (-0)) (V3 (-0) (-1) (-0)) (V3 (-0) (-0) (-1)))
           (V3 231 223 (-18))).
  - vm_compute; reflexivity.
  - reflexivity.
Defined.

End CameraBinary64.

(** * Part VII: where binary64 departs from exact arithmetic

    The properties of Parts II, IV and the exact half of Part VI are
    properties of the algorithm in exact arithmetic.  The program runs in
    binary64, where quotients overflow and underflow and every operation
    rounds.  This part runs the same definitions at [float] on inputs
    where that matters. *)

Module Binary64Limits.

Import Binary64 Binary64Edge.
Local Open Scope float_scope.

(** ** Comparing with NaN *)



Definition near_abs (eps x y : float) : bool := abs (x - y) <=? eps.



(** ** The library on a triangular argument

    On an upper triangular argument the Householder factorisation of
    LAPACK has nothing to eliminate and returns the identity and the
    argument; [lstsq] is given by the solution it returns.  [exact_call]
    records that these returns are a factorisation and a solution with no
    rounding at all: every product below is computed exactly. *)
Definition la_triangular (C : vec3 float) : LinAlg float :=
  {| qr := fun A => Ok (identity, A);
     lstsq := fun _ _ => Ok C |}.


(** ** Overflow of the scale normalisation *)






(** ** Underflow of the scale normalisation *)





(** ** The sign step on an infinite entry *)


(** ** Scaling a singular input *)


(** ** Rounding in the factorisation

    A factorisation computed in binary64: three plane rotations, each from
    a square root and two quotients, and the triangular factor read off
    the upper triangle, as [numpy.linalg.qr] reads it off LAPACK's
    result. *)

Definition hypot (a b : float) : float := sqrt (a * a + b * b).

Definition givens (a b : float) : float * float :=
  let h := hypot a b in
  if h =? 0 then (1, 0) else (a / h, b / h).

Definition rot01 (cs : float * float) : mat float :=
  let (c, s) := cs in V3 (V3 c s 0) (V3 (- s) c 0) (V3 0 0 1).
Definition rot02 (cs : float * float) : mat float :=
  let (c, s) := cs in V3 (V3 c 0 s) (V3 0 1 0) (V3 (- s) 0 c).
Definition rot12 (cs : float * float) : mat float :=
  let (c, s) := cs in V3 (V3 1 0 0) (V3 0 c s) (V3 0 (- s) c).

Definition triu (A : mat float) : mat float :=
  V3 (e0 A) (V3 0 (e1 (e1 A)) (e2 (e1 A))) (V3 0 0 (e2 (e2 A))).

Definition qr_rotations (A : mat float) : mat float * mat float :=
  let G1 := rot01 (givens (e0 (e0 A)) (e0 (e1 A))) in
  let A1 := mmul G1 A in
  let G2 := rot02 (givens (e0 (e0 A1)) (e0 (e2 A1))) in
  let A2 := mmul G2 A1 in
  let G3 := rot12 (givens (e1 (e1 A2)) (e1 (e2 A2))) in
  (transpose (mmul G3 (mmul G2 G1)), triu (mmul G3 A2)).


(** A nonsingular matrix with entries of magnitude 1e8. *)
Definition A_large : mat float :=
  V3 (V3 1e8 2e8 3e8) (V3 4e8 5e8 6e8) (V3 7e8 8e8 10e8).

Definition vec3_within (eps : float) (u v : vec3 float) : bool :=
  near_abs eps (e0 u) (e0 v) && near_abs eps (e1 u) (e1 v)
  && near_abs eps (e2 u) (e2 v).

Definition mat_within (eps : float) (A B : mat float) : bool :=
  vec3_within eps (e0 A) (e0 B) && vec3_within eps (e1 A) (e1 B)
  && vec3_within eps (e2 A) (e2 B).

(** On the argument that [rf_rq A_large] hands to [qr], [qr_rotations]
    is a factorisation to working precision: [q q^T] is the identity
    within 2^-51 (4.5e-16), [r] is upper triangular, and [q r] is the
    argument within 2^-21 (4.8e-7), a relative 5e-16 of its largest
    entry. *)
Lemma qr_rotations_sound :
  let A := flip (transpose A_large) in
  let q := fst (qr_rotations A) in
  let r := snd (qr_rotations A) in
  mat_within 0x1p-51 (mmul q (transpose q)) identity = true /\
  (e0 (e1 r) = 0 /\ e0 (e2 r) = 0 /\ e1 (e2 r) = 0) /\
  mat_within 0x1p-21 (mmul q r) A = true.
Proof. cbv zeta. repeat split; vm_compute; reflexivity. Qed.




End Binary64Limits.
